(** * Directory-boundary check for bash commands

    Shallow embedding of [src/claude/monitor.py]: the three constant
    command sets and [check_bash_directory_boundary], together with the
    library primitives the function calls ([shlex.split], the lexical part
    of [pathlib] and [Path.resolve]); and of the voice handler of
    [src/bot/features/voice_handler.py]. *)

From stdpp Require Import base decidable option list gmap strings pretty.
From Stdlib Require Import Ascii String.

Local Open Scope string_scope.
Local Open Scope list_scope.

(** ** Constant sets (monitor.py, lines 16-60) *)

Definition _FS_MODIFYING_COMMANDS : gset string :=
  {[ "mkdir"; "touch"; "cp"; "mv"; "rm"; "rmdir"; "ln"; "install"; "tee" ]}.

Definition _READ_ONLY_COMMANDS : gset string :=
  {[ "cat"; "ls"; "head"; "tail"; "less"; "more"; "which"; "whoami"; "pwd";
     "echo"; "printf"; "env"; "printenv"; "date"; "wc"; "sort"; "uniq";
     "diff"; "file"; "stat"; "du"; "df"; "tree"; "realpath"; "dirname";
     "basename" ]}.

Definition _FIND_MUTATING_ACTIONS : gset string :=
  {[ "-delete"; "-exec"; "-execdir"; "-ok"; "-okdir" ]}.

(** ** [shlex.split(command)]

    [shlex.split] runs the POSIX-mode lexer with [whitespace_split = True]
    and no comment characters.  [read_token] is a character-driven state
    machine; its state is kept here as the lexer keeps it. *)

Module Shlex.

Definition whitespace (c : ascii) : bool :=
  bool_decide (c = " "%char) || bool_decide (c = "009"%char)
  || bool_decide (c = "013"%char) || bool_decide (c = "010"%char).

Definition quotes (c : ascii) : bool :=
  bool_decide (c = "'"%char) || bool_decide (c = "034"%char).

Definition escape (c : ascii) : bool := bool_decide (c = "\"%char).

Definition escapedquotes (c : ascii) : bool := bool_decide (c = "034"%char).

(** [self.state]: [' '], ['a'], a quote character, or the escape
    character.  (State [None], past the end of input, is the end of the
    recursion.) *)
Inductive state :=
| InSpace                 (* ' ' *)
| InWord                  (* 'a' *)
| InQuote (q : ascii)     (* the opening quote *)
| InEscape.               (* '\' *)

(** [escapedstate]: where to return after the escaped character. *)
Inductive escapedstate :=
| EscInit                 (* ' ', the initial value *)
| EscWord                 (* 'a' *)
| EscQuote (q : ascii).

Definition resume (e : escapedstate) : state :=
  match e with
  | EscInit => InSpace
  | EscWord => InWord
  | EscQuote q => InQuote q
  end.

Definition snoc (token : string) (c : ascii) : string :=
  token +:+ String c "".

(** End of [read_token]: an unquoted empty result is the end-of-file
    marker, anything else is a token. *)
Definition emit (quoted : bool) (token : string) (rest : list string)
  : list string :=
  if quoted || negb (bool_decide (token = "")) then token :: rest else rest.

(** The lexer run over the remaining input; [None] is [ValueError]. *)
Fixpoint lex (st : state) (esc : escapedstate) (quoted : bool)
    (token : string) (input : string) : option (list string) :=
  match input with
  | EmptyString =>
      match st with
      | InSpace | InWord => Some (emit quoted token [])
      | InQuote _ => None          (* No closing quotation *)
      | InEscape => None           (* No escaped character *)
      end
  | String nextchar input' =>
      match st with
      | InSpace =>
          if whitespace nextchar then
            if quoted || negb (bool_decide (token = "")) then
              cons token <$> lex InSpace EscInit false "" input'
            else lex InSpace esc quoted token input'
          else if escape nextchar then
            lex InEscape EscWord quoted token input'
          else if quotes nextchar then
            lex (InQuote nextchar) esc quoted token input'
          else
            lex InWord esc quoted (String nextchar "") input'
      | InQuote q =>
          if bool_decide (nextchar = q) then
            lex InWord esc true token input'
          else if escape nextchar && escapedquotes q then
            lex InEscape (EscQuote q) true token input'
          else
            lex (InQuote q) esc true (snoc token nextchar) input'
      | InEscape =>
          let token1 :=
            match esc with
            | EscQuote q =>
                if negb (escape nextchar) && negb (bool_decide (nextchar = q))
                then snoc token "\"%char else token
            | _ => token
            end in
          lex (resume esc) esc quoted (snoc token1 nextchar) input'
      | InWord =>
          if whitespace nextchar then
            if quoted || negb (bool_decide (token = "")) then
              cons token <$> lex InSpace EscInit false "" input'
            else lex InSpace esc quoted token input'
          else if quotes nextchar then
            lex (InQuote nextchar) esc quoted token input'
          else if escape nextchar then
            lex InEscape EscWord quoted token input'
          else
            lex InWord esc quoted (snoc token nextchar) input'
      end
  end.

Definition split (s : string) : option (list string) :=
  lex InSpace EscInit false "" s.

End Shlex.

(** ** The lexical part of [pathlib] (POSIX flavour)

    A path string is cut at every "/"; empty components and "." are
    dropped ([parse_parts]), ".." is kept.  The directories handed to the
    check are absolute paths, kept as the list of their components below
    the root. *)

Definition Path := list string.

Module PurePath.

(** [rel.split("/")], with [cur] the component being read. *)
Fixpoint split_sep (cur : string) (s : string) : list string :=
  match s with
  | EmptyString => [cur]
  | String c s' =>
      if bool_decide (c = "/"%char) then cur :: split_sep "" s'
      else split_sep (cur +:+ String c "") s'
  end.

Definition kept (x : string) : bool :=
  negb (bool_decide (x = "")) && negb (bool_decide (x = ".")).

Definition parse_parts (s : string) : list string :=
  List.filter kept (split_sep "" s).

(** [Path(s).name]: the final component, or the empty string. *)
Definition name (s : string) : string := List.last (parse_parts s) "".

(** [working_directory / token] for a token without a leading "/". *)
Definition joinpath (p : Path) (token : string) : Path :=
  p ++ parse_parts token.

(** [str(p)] of an absolute path. *)
Fixpoint join_sep (p : list string) : string :=
  match p with
  | [] => ""
  | [x] => x
  | x :: p' => x +:+ "/" +:+ join_sep p'
  end.

Definition str (p : Path) : string := "/" +:+ join_sep p.

(** [p.relative_to(other)] succeeds exactly when the parts of [other]
    are a prefix of the parts of [p]. *)
Definition is_relative_to (p other : Path) : bool :=
  bool_decide (other `prefix_of` p).

End PurePath.

(** ** [Path.resolve()] on a filesystem snapshot

    Non-strict [resolve] never fails on a path that is missing: the walk
    of [os.path.realpath] asks [lstat] for each component in turn, treats
    a failing [lstat] like a component that is not a link, and appends the
    component.  A snapshot is given by what sits at each canonical
    location; a symbolic link is recorded with the canonical location it
    leads to (the value [realpath] caches for it once resolved), so
    snapshots with a cycle of links are not represented. *)

Inductive entry :=
| Missing                      (* lstat fails *)
| Plain                        (* a directory or a file *)
| Link (dest : Path).          (* a symbolic link and where it leads *)

Definition filesystem := Path -> entry.

Module Realpath.

Definition parent (p : Path) : Path := removelast p.

(** The loop of [_joinrealpath]: [path] is resolved so far, [rest] the
    components still to read. *)
Fixpoint walk (fs : filesystem) (path : Path) (rest : list string) : Path :=
  match rest with
  | [] => path
  | name :: rest' =>
      if bool_decide (name = "") || bool_decide (name = ".") then
        walk fs path rest'
      else if bool_decide (name = "..") then
        walk fs (parent path) rest'
      else
        let newpath := path ++ [name] in
        match fs newpath with
        | Link dest => walk fs dest rest'
        | _ => walk fs newpath rest'
        end
  end.

Definition resolve (fs : filesystem) (p : Path) : Path := walk fs [] p.

End Realpath.

(** ** [check_bash_directory_boundary] (monitor.py, lines 63-124) *)

(** [s.startswith(pre)] *)
Fixpoint startswith (s pre : string) {struct pre} : bool :=
  match pre with
  | EmptyString => true
  | String a pre' =>
      match s with
      | EmptyString => false
      | String b s' => bool_decide (a = b) && startswith s' pre'
      end
  end.

Arguments startswith : simpl never.

Definition violation (base_command token : string) (resolved_approved : Path)
  : string :=
  "Directory boundary violation: '" +:+ base_command +:+ "' targets '"
  +:+ token +:+ "' which is outside approved directory '"
  +:+ PurePath.str resolved_approved +:+ "'".

Section Check.

Variable fs : filesystem.

(** Lines 110-113: the path a candidate token stands for. *)
Definition resolve_token (working_directory : Path) (token : string) : Path :=
  if startswith token "/" then
    Realpath.resolve fs (PurePath.parse_parts token)
  else
    Realpath.resolve fs (PurePath.joinpath working_directory token).

(** Lines 102-124: the loop over [tokens[1:]]. *)
Fixpoint check_arguments (base_command : string)
    (working_directory resolved_approved : Path) (tokens : list string)
  : bool * option string :=
  match tokens with
  | [] => (true, None)
  | token :: tokens' =>
      if startswith token "-" then
        check_arguments base_command working_directory resolved_approved
          tokens'
      else
        let resolved := resolve_token working_directory token in
        if PurePath.is_relative_to resolved resolved_approved then
          check_arguments base_command working_directory resolved_approved
            tokens'
        else
          (false, Some (violation base_command token resolved_approved))
  end.

Definition check_bash_directory_boundary (command : string)
    (working_directory approved_directory : Path) : bool * option string :=
  match Shlex.split command with
  | None => (true, None)
  | Some [] => (true, None)
  | Some (token0 :: arguments) =>
      let base_command := PurePath.name token0 in
      if bool_decide (base_command ∈ _READ_ONLY_COMMANDS) then (true, None)
      else
        let path_check :=
          check_arguments base_command working_directory
            (Realpath.resolve fs approved_directory) arguments in
        if bool_decide (base_command = "find") then
          let has_mutating_action :=
            existsb (fun t => bool_decide (t ∈ _FIND_MUTATING_ACTIONS))
              arguments in
          if negb has_mutating_action then (true, None) else path_check
        else if negb (bool_decide (base_command ∈ _FS_MODIFYING_COMMANDS))
        then (true, None)
        else path_check
  end.

End Check.

(** The two shapes of the returned pair. *)
Definition Allowed : bool * option string := (true, None).
Definition Denied (reason : string) : bool * option string :=
  (false, Some reason).

(** ** Vocabulary of the statements *)

(** Containment as the loop tests it. *)
Definition inside (resolved approved : Path) : Prop :=
  PurePath.is_relative_to resolved approved = true.

Definition strictly_inside (resolved approved : Path) : Prop :=
  inside resolved approved /\ resolved <> approved.

Definition outside (resolved approved : Path) : Prop :=
  PurePath.is_relative_to resolved approved = false.

(** A flag argument, skipped by the loop. *)
Definition is_flag (token : string) : Prop := startswith token "-" = true.

(** What lets the loop go on to the next token. *)
Definition passes (fs : filesystem) (working_directory resolved_approved : Path)
    (token : string) : Prop :=
  is_flag token
  \/ inside (resolve_token fs working_directory token) resolved_approved.

(** The commands that get as far as the loop over the arguments. *)
Definition path_checked (base_command : string) (arguments : list string)
  : Prop :=
  base_command ∈ _FS_MODIFYING_COMMANDS
  \/ (base_command = "find"
      /\ exists t, t ∈ arguments /\ t ∈ _FIND_MUTATING_ACTIONS).

(** A word the lexer passes through unchanged: not empty, and free of
    whitespace, quotes and backslashes. *)
Definition plain_char (c : ascii) : bool :=
  negb (Shlex.whitespace c) && negb (Shlex.quotes c) && negb (Shlex.escape c).

Fixpoint plain (s : string) : bool :=
  match s with
  | EmptyString => true
  | String c s' => plain_char c && plain s'
  end.

Definition word (s : string) : bool :=
  negb (bool_decide (s = "")) && plain s.

Fixpoint unwords (ws : list string) : string :=
  match ws with
  | [] => ""
  | [w] => w
  | w :: ws' => w +:+ " " +:+ unwords ws'
  end.

(** A component as a canonical path has them: an ordinary name without a
    separator in it. *)
Fixpoint has_sep (s : string) : bool :=
  match s with
  | EmptyString => false
  | String c s' => bool_decide (c = "/"%char) || has_sep s'
  end.

Definition proper_name (x : string) : bool :=
  PurePath.kept x && negb (bool_decide (x = "..")) && negb (has_sep x).

Definition is_link (e : entry) : bool :=
  match e with Link _ => true | _ => false end.

(** [rest] below [path] is spelled with proper names and crosses no
    symbolic link. *)
Fixpoint physical_from (fs : filesystem) (path : Path) (rest : list string)
  : bool :=
  match rest with
  | [] => true
  | x :: rest' =>
      proper_name x && negb (is_link (fs (path ++ [x])))
      && physical_from fs (path ++ [x]) rest'
  end.

(** A canonical directory of the snapshot. *)
Definition physical (fs : filesystem) (p : Path) : bool :=
  physical_from fs [] p.

(** * The check with the exceptions of [resolve()]

    [Path.resolve()] is called at lines 100, 111 and 113, outside the
    function's only [try] that could catch it, so what it raises leaves
    the function.  [os.lstat] raises [ValueError] ("embedded null byte")
    for a component with a NUL byte.  At a symbolic link that is part of a
    cycle the resolver's behaviour depends on the Python version and on
    the components still to read ([RuntimeError] "Symlink loop" up to
    Python 3.12 when the path does not step back out of the link); a
    snapshot records it as it is, a function of those components. *)

Fixpoint has_nul (s : string) : bool :=
  match s with
  | EmptyString => false
  | String c s' => bool_decide (c = "000"%char) || has_nul s'
  end.

Definition nul_free (s : string) : Prop := has_nul s = false.

Module Raising.

Inductive exception :=
| ValueError_embedded_null_byte
| RuntimeError_symlink_loop.

Inductive outcome (A : Type) :=
| Returns (a : A)
| Raises (e : exception).

Arguments Returns {A} a.
Arguments Raises {A} e.

(** The links of the snapshot, and at each location of a link in a cycle
    what the resolver does there with the rest of the path. *)
Record snapshot := {
  links : filesystem;
  cycle : Path -> option (list string -> outcome Path)
}.

Fixpoint walk (s : snapshot) (path : Path) (rest : list string)
  : outcome Path :=
  match rest with
  | [] => Returns path
  | name :: rest' =>
      if bool_decide (name = "") || bool_decide (name = ".") then
        walk s path rest'
      else if bool_decide (name = "..") then
        walk s (Realpath.parent path) rest'
      else if has_nul name then
        Raises ValueError_embedded_null_byte
      else
        let newpath := path ++ [name] in
        match cycle s newpath with
        | Some resolver_gives => resolver_gives rest'
        | None =>
            match links s newpath with
            | Link dest => walk s dest rest'
            | _ => walk s newpath rest'
            end
        end
  end.

Definition resolve (s : snapshot) (p : Path) : outcome Path := walk s [] p.

(** Lines 110-113. *)
Definition resolve_token (s : snapshot) (working_directory : Path)
    (token : string) : outcome Path :=
  if startswith token "/" then
    resolve s (PurePath.parse_parts token)
  else
    resolve s (PurePath.joinpath working_directory token).

(** Lines 102-124. *)
Fixpoint check_arguments (s : snapshot) (base_command : string)
    (working_directory resolved_approved : Path) (tokens : list string)
  : outcome (bool * option string) :=
  match tokens with
  | [] => Returns (true, None)
  | token :: tokens' =>
      if startswith token "-" then
        check_arguments s base_command working_directory resolved_approved
          tokens'
      else
        match resolve_token s working_directory token with
        | Raises e => Raises e
        | Returns resolved =>
            if PurePath.is_relative_to resolved resolved_approved then
              check_arguments s base_command working_directory
                resolved_approved tokens'
            else
              Returns
                (false, Some (violation base_command token resolved_approved))
        end
  end.

(** Lines 63-124. *)
Definition check_bash_directory_boundary (s : snapshot) (command : string)
    (working_directory approved_directory : Path)
  : outcome (bool * option string) :=
  match Shlex.split command with
  | None => Returns (true, None)
  | Some [] => Returns (true, None)
  | Some (token0 :: arguments) =>
      let base_command := PurePath.name token0 in
      if bool_decide (base_command ∈ _READ_ONLY_COMMANDS)
      then Returns (true, None)
      else
        let path_check :=
          match resolve s approved_directory with
          | Raises e => Raises e
          | Returns resolved_approved =>
              check_arguments s base_command working_directory
                resolved_approved arguments
          end in
        if bool_decide (base_command = "find") then
          let has_mutating_action :=
            existsb (fun t => bool_decide (t ∈ _FIND_MUTATING_ACTIONS))
              arguments in
          if negb has_mutating_action then Returns (true, None)
          else path_check
        else if negb (bool_decide (base_command ∈ _FS_MODIFYING_COMMANDS))
        then Returns (true, None)
        else path_check
  end.

(** What the resolver of Python up to 3.12 does at a link [loop] that
    leads to itself, when no other cycle is near: the rest of the path is
    normalised by spelling only, and the result is returned as it is
    unless it holds a NUL byte or still passes through the link. *)
Fixpoint lexical (path : Path) (rest : list string) : Path :=
  match rest with
  | [] => path
  | name :: rest' =>
      if bool_decide (name = "") || bool_decide (name = ".") then
        lexical path rest'
      else if bool_decide (name = "..") then
        lexical (Realpath.parent path) rest'
      else lexical (path ++ [name]) rest'
  end.

Definition at_isolated_cycle (loop : Path) (rest : list string)
  : outcome Path :=
  let spelled := lexical loop rest in
  if existsb has_nul spelled then Raises ValueError_embedded_null_byte
  else if bool_decide (loop `prefix_of` spelled)
       then Raises RuntimeError_symlink_loop
  else Returns spelled.

(** What lets the loop go on to the next token. *)
Definition passes (s : snapshot) (working_directory resolved_approved : Path)
    (token : string) : Prop :=
  is_flag token
  \/ exists resolved,
       resolve_token s working_directory token = Returns resolved
       /\ inside resolved resolved_approved.

(** An argument the loop can get past without an exception. *)
Definition resolves (s : snapshot) (working_directory : Path)
    (token : string) : Prop :=
  is_flag token
  \/ exists resolved, resolve_token s working_directory token = Returns resolved.

(** No link of the snapshot is part of a cycle. *)
Definition acyclic (s : snapshot) : Prop := forall p, cycle s p = None.

End Raising.

(** Where [<A's parent>/outside] leads: the destination of a link that
    sits there, or the place itself. *)
Definition traversal_target (fs : filesystem) (A : Path) : Path :=
  match fs (Realpath.parent A ++ ["outside"]) with
  | Link dest => dest
  | _ => Realpath.parent A ++ ["outside"]
  end.

(** * Voice notes (bot/features/voice_handler.py)

    [VoiceHandler] turns a voice note into a prompt and a reply into
    speech.  Both methods are coroutines that await one call of the
    speech service; a run is kept here as the tree of what the method
    does: what it logs, what it asks of the service, and how it goes on
    from each answer. *)

Module Voice.

(** Python [str], a sequence of code points, and [bytes]. *)
Definition text := list N.
Definition bytes := list Byte.byte.

(** An ASCII literal of the source. *)
Definition lit (s : string) : text := N_of_ascii <$> list_ascii_of_string s.

(** [len(x)] *)
Definition len {A} (l : list A) : Z := Z.of_nat (List.length l).

(** [str(n)] for an [int]. *)
Definition str_int (n : Z) : text := lit (pretty n).

(** [c.isspace()]: the code points that [str.strip()] removes. *)
Definition isspace (c : N) : bool :=
  ((9 <=? c) && (c <=? 13) || (28 <=? c) && (c <=? 32)
   || (c =? 133) || (c =? 160) || (c =? 5760)
   || (8192 <=? c) && (c <=? 8202)
   || (c =? 8232) || (c =? 8233) || (c =? 8239) || (c =? 8287)
   || (c =? 12288))%N.

Fixpoint lstrip (s : text) : text :=
  match s with
  | [] => []
  | c :: s' => if isspace c then lstrip s' else s
  end.

Definition rstrip (s : text) : text := reverse (lstrip (reverse s)).

(** [s.strip()] *)
Definition strip (s : text) : text := rstrip (lstrip s).

(** [Settings] is declared outside these files; these are the fields the
    handler reads, typed by the use it makes of them. *)
Record Settings := {
  voice_max_duration_seconds : Z;
  voice_tts_voice : text;
  voice_tts_model : text;
  voice_stt_model : text;
  enable_voice_response : bool;
  voice_response_max_chars : Z;
  openai_api_key_str : option text
}.

(** The handler after [__init__]; [client] is the service client, known
    by the key it was made with. *)
Record VoiceHandler := {
  config : Settings;
  max_duration_seconds : Z;
  tts_voice : text;
  tts_model : text;
  stt_model : text;
  enable_response : bool;
  response_max_chars : Z;
  client : text
}.

Section Handler.

(** Floating-point values and the three operations on them that the
    source uses are left uninterpreted, and so are the exceptions of the
    service. *)
Variable float : Type.
Variable exn : Type.
Variable int_truediv : Z -> Z -> float.         (* int / int *)
Variable int_div_float : Z -> float -> float.   (* int / float *)
Variable round_to : float -> Z -> float.        (* round(x, n) *)

(** A value of a log field or of the metadata dictionary. *)
Inductive value :=
| VInt (n : Z)
| VStr (s : text)
| VFloat (x : float).

Record ProcessedVoice := {
  transcription : text;
  prompt : text;
  duration_seconds : Z;
  file_size : Z;
  metadata : gmap text value
}.

Record VoiceResponse := {
  audio_data : bytes;
  format : text;
  duration_estimate_seconds : float
}.

(** What the transcription call returns: a string, or an object with a
    [text] attribute. *)
Inductive transcript :=
| AsStr (s : text)
| AsObject (text_attribute : text).

(** The end of an awaited call. *)
Inductive answer (T : Type) :=
| Returned (x : T)
| Raised (e : exn).

Arguments Returned {T} x.
Arguments Raised {T} e.

Inductive action (R : Type) :=
| Return (r : R)
| RaiseValueError (message : text)
| Propagate (e : exn)
| LogInfo (event : text) (fields : list (text * value)) (next : action R)
| AwaitTranscription (model file_name : text) (file : bytes)
    (response_format : text) (resume : answer transcript -> action R)
| AwaitSpeech (model voice input response_format : text)
    (resume : answer bytes -> action R).

Arguments Return {R} r.
Arguments RaiseValueError {R} message.
Arguments Propagate {R} e.
Arguments LogInfo {R} event fields next.
Arguments AwaitTranscription {R} model file_name file response_format resume.
Arguments AwaitSpeech {R} model voice input response_format resume.

(** [VoiceHandler.__init__] (lines 46-59) *)
Definition init (cfg : Settings) : action VoiceHandler :=
  match openai_api_key_str cfg with
  | None | Some [] =>
      RaiseValueError (lit "OPENAI_API_KEY is required for voice support")
  | Some api_key =>
      Return {| config := cfg;
                max_duration_seconds := voice_max_duration_seconds cfg;
                tts_voice := voice_tts_voice cfg;
                tts_model := voice_tts_model cfg;
                stt_model := voice_stt_model cfg;
                enable_response := enable_voice_response cfg;
                response_max_chars := voice_response_max_chars cfg;
                client := api_key |}
  end.

Definition too_long_message (duration maximum : Z) : text :=
  lit "Voice note too long (" ++ str_int duration ++ lit "s). "
  ++ lit "Maximum is " ++ str_int maximum ++ lit "s.".

Definition no_speech_message : text :=
  lit "Could not transcribe any speech from the voice note.".

Definition prompt_marker : text := lit "[Voice message transcription]: ".

(** [transcribe_voice] (lines 61-127) *)
Definition transcribe_voice (self : VoiceHandler) (voice_file_bytes : bytes)
    (duration : Z) : action ProcessedVoice :=
  if (duration >? max_duration_seconds self)%Z then
    RaiseValueError (too_long_message duration (max_duration_seconds self))
  else
    LogInfo (lit "Transcribing voice note")
      [(lit "duration", VInt duration);
       (lit "file_size", VInt (len voice_file_bytes));
       (lit "model", VStr (stt_model self))]
    (AwaitTranscription (stt_model self) (lit "voice.ogg") voice_file_bytes
       (lit "text")
       (fun result =>
          match result with
          | Raised e => Propagate e
          | Returned transcription =>
              let text :=
                match transcription with
                | AsStr s => strip s
                | AsObject t => strip t
                end in
              match text with
              | [] => RaiseValueError no_speech_message
              | _ =>
                  LogInfo (lit "Voice note transcribed")
                    [(lit "duration", VInt duration);
                     (lit "transcription_length", VInt (len text))]
                  (Return {| transcription := text;
                             prompt := prompt_marker ++ text;
                             duration_seconds := duration;
                             file_size := len voice_file_bytes;
                             metadata :=
                               {[ lit "stt_model" := VStr (stt_model self) ]}
                          |})
              end
          end)).

(** The message of line 145 has a dash that is not ASCII (U+2014). *)
Definition skipping_event : text :=
  lit "Skipping voice response " ++ [8212%N] ++ lit " text too long".

(** [generate_voice_response] (lines 129-180) *)
Definition generate_voice_response (self : VoiceHandler) (text : text)
  : action (option VoiceResponse) :=
  if negb (enable_response self) then Return None
  else if (len text >? response_max_chars self)%Z then
    LogInfo skipping_event
      [(lit "length", VInt (len text));
       (lit "max", VInt (response_max_chars self))]
    (Return None)
  else
    LogInfo (lit "Generating voice response")
      [(lit "text_length", VInt (len text));
       (lit "voice", VStr (tts_voice self));
       (lit "model", VStr (tts_model self))]
    (AwaitSpeech (tts_model self) (tts_voice self) text (lit "opus")
       (fun result =>
          match result with
          | Raised e => Propagate e
          | Returned content =>
              let audio_data := content in
              let estimated_duration :=
                int_div_float (len text) (int_truediv (150 * 5) 60) in
              LogInfo (lit "Voice response generated")
                [(lit "audio_size", VInt (len audio_data));
                 (lit "estimated_duration",
                  VFloat (round_to estimated_duration 1))]
              (Return (Some {| audio_data := audio_data;
                               format := lit "opus";
                               duration_estimate_seconds :=
                                 estimated_duration |}))
          end)).

(** ** Running a method against the service *)

(** What a run leaves behind, in order. *)
Inductive effect :=
| Logged (event : text) (fields : list (text * value))
| AskedTranscription (model file_name : text) (file : bytes)
    (response_format : text)
| AskedSpeech (model voice input response_format : text).

Inductive outcome (R : Type) :=
| Finished (r : R)
| ValueError (message : text)
| Failed (e : exn).

Arguments Finished {R} r.
Arguments ValueError {R} message.
Arguments Failed {R} e.

(** The service, as what it answers to each request. *)
Record service := {
  transcriptions_create : text -> text -> bytes -> text -> answer transcript;
  speech_create : text -> text -> text -> text -> answer bytes
}.

Fixpoint run {R} (svc : service) (a : action R) : outcome R * list effect :=
  match a with
  | Return r => (Finished r, [])
  | RaiseValueError message => (ValueError message, [])
  | Propagate e => (Failed e, [])
  | LogInfo event fields next =>
      let '(o, trace) := run svc next in (o, Logged event fields :: trace)
  | AwaitTranscription model file_name file response_format resume =>
      let '(o, trace) :=
        run svc (resume (transcriptions_create svc model file_name file
                           response_format)) in
      (o, AskedTranscription model file_name file response_format :: trace)
  | AwaitSpeech model voice input response_format resume =>
      let '(o, trace) :=
        run svc (resume (speech_create svc model voice input
                           response_format)) in
      (o, AskedSpeech model voice input response_format :: trace)
  end.

Definition is_request (e : effect) : bool :=
  match e with Logged _ _ => false | _ => true end.

(** The requests a run made of the service. *)
Definition requests (trace : list effect) : list effect :=
  List.filter is_request trace.

Definition transcript_text (t : transcript) : text :=
  match t with AsStr s => s | AsObject s => s end.

End Handler.

Arguments Returned {exn T} x.
Arguments Raised {exn T} e.
Arguments Finished {exn R} r.
Arguments ValueError {exn R} message.
Arguments Failed {exn R} e.
Arguments VInt {float} n.
Arguments VStr {float} s.
Arguments VFloat {float} x.
Arguments Logged {float} event fields.
Arguments AskedTranscription {float} model file_name file response_format.
Arguments AskedSpeech {float} model voice input response_format.
Arguments Return {float exn R} r.
Arguments RaiseValueError {float exn R} message.
Arguments Propagate {float exn R} e.
Arguments LogInfo {float exn R} event fields next.
Arguments AwaitTranscription {float exn R} model file_name file
  response_format resume.
Arguments AwaitSpeech {float exn R} model voice input response_format resume.
Arguments init {float exn} cfg.
Arguments transcribe_voice {float exn} self voice_file_bytes duration.
Arguments run {float exn R} svc a.
Arguments requests {float} trace.
Arguments generate_voice_response {float exn} int_truediv int_div_float
  round_to self text.
Arguments transcription {float} p.
Arguments prompt {float} p.
Arguments duration_seconds {float} p.
Arguments file_size {float} p.
Arguments metadata {float} p.
Arguments audio_data {float} v.
Arguments format {float} v.
Arguments duration_estimate_seconds {float} v.
Arguments transcriptions_create {exn} s.
Arguments speech_create {exn} s.
Arguments Build_service {exn} transcriptions_create speech_create.

End Voice.

(** ** A sample handler and two services

    Floating-point values and service exceptions play no part in the
    sample runs; both are taken as [unit]. *)
Definition cfg0 : Voice.Settings :=
  {| Voice.voice_max_duration_seconds := 120;
     Voice.voice_tts_voice := Voice.lit "alloy";
     Voice.voice_tts_model := Voice.lit "tts-1";
     Voice.voice_stt_model := Voice.lit "whisper-1";
     Voice.enable_voice_response := true;
     Voice.voice_response_max_chars := 12;
     Voice.openai_api_key_str := Some (Voice.lit "sk-test") |}.

Definition handler0 : Voice.VoiceHandler :=
  {| Voice.config := cfg0;
     Voice.max_duration_seconds := 120;
     Voice.tts_voice := Voice.lit "alloy";
     Voice.tts_model := Voice.lit "tts-1";
     Voice.stt_model := Voice.lit "whisper-1";
     Voice.enable_response := true;
     Voice.response_max_chars := 12;
     Voice.client := Voice.lit "sk-test" |}.

(** Answers "  hello world", a line separator and a newline. *)
Definition service0 : Voice.service unit :=
  Voice.Build_service
    (fun _ _ _ _ =>
       Voice.Returned
         (Voice.AsObject (Voice.lit "  hello world" ++ [8232%N; 10%N])))
    (fun _ _ _ _ => Voice.Returned [Byte.x4f; Byte.x67; Byte.x67; Byte.x53]).

(** Hears nothing: answers a tab and a no-break space. *)
Definition service_blank : Voice.service unit :=
  Voice.Build_service
    (fun _ _ _ _ => Voice.Returned (Voice.AsStr [9%N; 160%N]))
    (fun _ _ _ _ => Voice.Raised tt).

Definition no_float2 (a : Z) (b : Z) : unit := tt.
Definition no_float_div (a : Z) (x : unit) : unit := tt.
Definition no_round (x : unit) (n : Z) : unit := tt.

(** ** Vocabulary of the further properties *)

(** Lines 86-97 as one test: does the command reach the loop? *)
Definition checks_paths (base_command : string) (arguments : list string)
  : bool :=
  negb (bool_decide (base_command ∈ _READ_ONLY_COMMANDS))
  && (if bool_decide (base_command = "find")
      then existsb (fun t => bool_decide (t ∈ _FIND_MUTATING_ACTIONS))
             arguments
      else bool_decide (base_command ∈ _FS_MODIFYING_COMMANDS)).

(** An argument that the working directory has no part in. *)
Definition absolute_or_flag (token : string) : Prop :=
  is_flag token \/ startswith token "/" = true.

(** A relative argument spelled with proper names that crosses no symbolic
    link below the working directory; what it names may exist or not. *)
Definition names_below (fs : filesystem) (working_directory : Path)
    (token : string) : Prop :=
  startswith token "/" = false
  /\ physical_from fs working_directory (PurePath.parse_parts token) = true.

(** A text without any quote or backslash. *)
Fixpoint unquoted (s : string) : bool :=
  match s with
  | EmptyString => true
  | String c s' =>
      negb (Shlex.quotes c) && negb (Shlex.escape c) && unquoted s'
  end.

(** A text in which the character [q] does not occur. *)
Fixpoint lacks (q : ascii) (s : string) : bool :=
  match s with
  | EmptyString => true
  | String c s' => negb (bool_decide (c = q)) && lacks q s'
  end.

(** From a point between or inside unquoted words, [rest] cannot be read. *)
Definition unreadable (rest : string) : Prop :=
  forall esc quoted token,
    Shlex.lex Shlex.InSpace esc quoted token rest = None
    /\ Shlex.lex Shlex.InWord esc quoted token rest = None.

(** What [realpath] can see of an entry: the destination of a link. *)
Definition link_of (e : entry) : option Path :=
  match e with Link dest => Some dest | _ => None end.

(** Two snapshots with the same symbolic links; they may differ in which
    files and directories exist. *)
Definition same_links (fs1 fs2 : filesystem) : Prop :=
  forall p, link_of (fs1 p) = link_of (fs2 p).

(** ** A sample snapshot

    /home/a is the approved directory; /home/a/out is a link to /etc and
    /home/a/dangling a link to /home/a/gone, which does not exist. *)
Definition fs0 : filesystem := fun p =>
  if bool_decide (p = ["home"]) then Plain
  else if bool_decide (p = ["home"; "a"]) then Plain
  else if bool_decide (p = ["etc"]) then Plain
  else if bool_decide (p = ["home"; "a"; "out"]) then Link ["etc"]
  else if bool_decide (p = ["home"; "a"; "dangling"])
       then Link ["home"; "a"; "gone"]
  else Missing.

Definition A0 : Path := ["home"; "a"].

(** The same links on a disk where nothing else exists yet. *)
Definition fs_bare : filesystem := fun p =>
  match fs0 p with Link dest => Link dest | _ => Missing end.

(** An approved directory that is itself a link: /p/link leads to /q/real,
    and /p/outside is a link into it. *)
Definition fs_link : filesystem := fun p =>
  if bool_decide (p = ["p"; "link"]) then Link ["q"; "real"]
  else if bool_decide (p = ["p"; "outside"]) then Link ["q"; "real"; "in"]
  else if bool_decide (p = ["p"]) then Plain
  else if bool_decide (p = ["q"]) then Plain
  else if bool_decide (p = ["q"; "real"]) then Plain
  else Missing.

Definition A_link : Path := ["p"; "link"].

(** The sample snapshot with one more link, /home/a/loop, which leads to
    itself, under a Python up to 3.12. *)
Definition snap0 : Raising.snapshot :=
  {| Raising.links := fs0;
     Raising.cycle := fun p =>
       if bool_decide (p = ["home"; "a"; "loop"])
       then Some (Raising.at_isolated_cycle ["home"; "a"; "loop"])
       else None |}.

(** The sample snapshot as it is, without any cycle. *)
Definition snap_plain : Raising.snapshot :=
  {| Raising.links := fs0; Raising.cycle := fun _ => None |}.

Definition nul : string := String "000"%char "".

Definition dq : string := String "034"%char "".

(** ** Sample runs *)

Example split_rm :
  Shlex.split ("rm -rf  '/tmp/a b' x\ y " +:+ dq +:+ "q\" +:+ dq +:+ "r\n" +:+ dq) =
  Some ["rm"; "-rf"; "/tmp/a b"; "x y"; "q" +:+ dq +:+ "r\n"].
Proof. vm_compute. reflexivity. Qed.

Example split_unterminated : Shlex.split "echo 'oops" = None.
Proof. reflexivity. Qed.

Example split_blank : Shlex.split "   " = Some [].
Proof. reflexivity. Qed.

Example run1 : check_bash_directory_boundary fs0 "rm -rf ../b" A0 A0 =
  Denied "Directory boundary violation: 'rm' targets '../b' which is outside approved directory '/home/a'".
Proof. vm_compute. reflexivity. Qed.

Example run2 : check_bash_directory_boundary fs0 "/bin/mkdir -p x/y ./z//w/" A0 A0 = Allowed.
Proof. vm_compute. reflexivity. Qed.

Example run3 : check_bash_directory_boundary fs0 "touch out/passwd" A0 A0 =
  Denied "Directory boundary violation: 'touch' targets 'out/passwd' which is outside approved directory '/home/a'".
Proof. vm_compute. reflexivity. Qed.

Example run4 : check_bash_directory_boundary fs0 "find . -name x -delete" ["tmp"] A0 =
  Denied "Directory boundary violation: 'find' targets '.' which is outside approved directory '/home/a'".
Proof. vm_compute. reflexivity. Qed.

Example split_quoting :
  Shlex.split ("a'b'c " +:+ dq +:+ dq +:+ " d") = Some ["abc"; ""; "d"].
Proof. vm_compute. reflexivity. Qed.

Example base_is_case_sensitive :
  check_bash_directory_boundary fs0 "RM -rf /etc" A0 A0 = Allowed
  /\ check_bash_directory_boundary fs0 "/usr/bin/rm -rf /etc" A0 A0
     = Denied (violation "rm" "/etc" A0).
Proof. split; vm_compute; reflexivity. Qed.

Example split_dangling_escape : Shlex.split "a\" = None.
Proof. reflexivity. Qed.

Example name_samples :
  map PurePath.name ["/usr/bin/rm"; "rm/"; "a/."; "a/.."; "/"; "."; ""; "//x"]
  = ["rm"; "rm"; "a"; ".."; ""; ""; ""; "x"].
Proof. vm_compute. reflexivity. Qed.

Example join_sample :
  PurePath.joinpath A0 "x/./y//z/.." = ["home"; "a"; "x"; "y"; "z"; ".."].
Proof. vm_compute. reflexivity. Qed.

(** ** Classification *)

(** Closed facts about the constant sets are settled by evaluation. *)
Ltac by_evaluation := apply (bool_decide_unpack _); vm_compute; exact I.

Section Classification.

Variable fs : filesystem.
Variables (working_directory approved_directory : Path).

Lemma fs_modifying_cases base :
  base ∈ _FS_MODIFYING_COMMANDS ->
  bool_decide (base ∈ _READ_ONLY_COMMANDS) = false
  /\ bool_decide (base = "find") = false
  /\ bool_decide (base ∈ _FS_MODIFYING_COMMANDS) = true.
Proof.
  unfold _FS_MODIFYING_COMMANDS at 1. rewrite !elem_of_union, !elem_of_singleton.
  intros Hin. destruct_or! Hin; subst base; vm_compute; auto.
Qed.

Lemma find_not_read_only : "find" ∉ _READ_ONLY_COMMANDS.
Proof. by_evaluation. Qed.

Lemma existsb_mutating (arguments : list string) :
  existsb (fun t => bool_decide (t ∈ _FIND_MUTATING_ACTIONS)) arguments = true
  <-> exists t, t ∈ arguments /\ t ∈ _FIND_MUTATING_ACTIONS.
Proof.
  rewrite existsb_exists. split.
  - intros (t & Hin & Ht). exists t. split.
    + by apply list_elem_of_In.
    + by apply bool_decide_eq_true in Ht.
  - intros (t & Hin & Ht). exists t. split.
    + by apply list_elem_of_In.
    + by apply bool_decide_eq_true.
Qed.

(** A command that is path-checked is decided by the loop over its
    arguments alone. *)
Lemma path_checked_verdict command token0 arguments :
  Shlex.split command = Some (token0 :: arguments) ->
  path_checked (PurePath.name token0) arguments ->
  check_bash_directory_boundary fs command working_directory
    approved_directory
  = check_arguments fs (PurePath.name token0) working_directory
      (Realpath.resolve fs approved_directory) arguments.
Proof.
  intros Hsplit Hpc. unfold check_bash_directory_boundary.
  rewrite Hsplit. cbv zeta.
  destruct Hpc as [Hmod | [Hfind Hact]].
  - destruct (fs_modifying_cases _ Hmod) as (-> & -> & ->). reflexivity.
  - rewrite Hfind.
    rewrite (bool_decide_eq_false_2 _ find_not_read_only).
    rewrite bool_decide_eq_true_2 by reflexivity.
    apply existsb_mutating in Hact. rewrite Hact. reflexivity.
Qed.

End Classification.

(** ** The loop over the arguments *)

Section Loop.

Variable fs : filesystem.
Variables (base_command : string) (working_directory resolved_approved : Path).

Local Abbreviation loop :=
  (check_arguments fs base_command working_directory resolved_approved).

Local Abbreviation passes := (passes fs working_directory resolved_approved).

Lemma loop_flag token tokens : is_flag token -> loop (token :: tokens) = loop tokens.
Proof. unfold is_flag. intros Hflag. simpl. by rewrite Hflag. Qed.

Lemma loop_inside token tokens :
  inside (resolve_token fs working_directory token) resolved_approved ->
  loop (token :: tokens) = loop tokens.
Proof.
  unfold inside. intros Hin. simpl. rewrite Hin.
  by destruct (startswith token "-").
Qed.

Lemma loop_passes token tokens : passes token -> loop (token :: tokens) = loop tokens.
Proof. intros [Hflag | Hin]; [by apply loop_flag | by apply loop_inside]. Qed.

Lemma loop_violation token tokens :
  ~ is_flag token ->
  outside (resolve_token fs working_directory token) resolved_approved ->
  loop (token :: tokens)
  = Denied (violation base_command token resolved_approved).
Proof.
  unfold is_flag, outside. intros Hflag Hout. simpl.
  destruct (startswith token "-"); [done |]. by rewrite Hout.
Qed.

Lemma loop_all_pass tokens : Forall passes tokens -> loop tokens = Allowed.
Proof.
  induction 1 as [| token tokens Hpass _ IH]; [reflexivity |].
  by rewrite loop_passes.
Qed.

Lemma loop_first_violation before token after :
  Forall passes before ->
  ~ is_flag token ->
  outside (resolve_token fs working_directory token) resolved_approved ->
  loop (before ++ token :: after)
  = Denied (violation base_command token resolved_approved).
Proof.
  intros Hbefore Hflag Hout.
  induction Hbefore as [| t before Hpass _ IH]; simpl app.
  - by apply loop_violation.
  - by rewrite loop_passes.
Qed.

(** Flag arguments have no part in the verdict. *)
Lemma loop_without_flags tokens :
  loop tokens
  = loop (List.filter (fun t => negb (startswith t "-")) tokens).
Proof.
  induction tokens as [| token tokens IH]; [reflexivity |].
  simpl. destruct (startswith token "-") eqn:Hflag; simpl; [done |].
  rewrite Hflag. by rewrite IH.
Qed.

(** A denial comes from one place only. *)
Lemma loop_denied_inv tokens reason :
  loop tokens = Denied reason ->
  exists token,
    token ∈ tokens /\ ~ is_flag token
    /\ outside (resolve_token fs working_directory token) resolved_approved
    /\ reason = violation base_command token resolved_approved.
Proof.
  unfold is_flag, outside, Denied.
  induction tokens as [| token tokens IH]; simpl; [done |].
  destruct (startswith token "-") eqn:Hflag.
  - intros H. destruct (IH H) as (t & Hin & Ht). exists t.
    split; [by apply list_elem_of_further | done].
  - destruct (PurePath.is_relative_to _ _) eqn:Hrel.
    + intros H. destruct (IH H) as (t & Hin & Ht). exists t.
      split; [by apply list_elem_of_further | done].
    + intros [= <-]. exists token.
      split_and!; [apply list_elem_of_here | congruence | done | done].
Qed.

Lemma loop_total tokens :
  loop tokens = Allowed \/ exists reason, loop tokens = Denied reason.
Proof.
  induction tokens as [| token tokens IH]; simpl; [by left |].
  destruct (startswith token "-"); [done |].
  destruct (PurePath.is_relative_to _ _); [done |]. right. by eexists.
Qed.

End Loop.

(** ** Strings and the tokenizer *)

Lemma append_cons (x : ascii) (a b : string) :
  String x a +:+ b = String x (a +:+ b).
Proof. reflexivity. Qed.

Lemma append_empty_l (a : string) : "" +:+ a = a.
Proof. reflexivity. Qed.

Lemma append_assoc (a b c : string) : (a +:+ b) +:+ c = a +:+ b +:+ c.
Proof.
  induction a as [| x a IH]; [reflexivity |]. by rewrite !append_cons, IH.
Qed.

Lemma append_empty_r (a : string) : a +:+ "" = a.
Proof.
  induction a as [| x a IH]; [reflexivity |]. by rewrite append_cons, IH.
Qed.

Lemma plain_char_elim c :
  plain_char c = true ->
  Shlex.whitespace c = false /\ Shlex.quotes c = false /\ Shlex.escape c = false.
Proof.
  unfold plain_char. rewrite !andb_true_iff, !negb_true_iff. tauto.
Qed.

Section Tokenizer.

Import Shlex.

(** Inside a word, plain characters are appended up to the end. *)
Lemma lex_plain_end s : forall esc quoted token,
  plain s = true ->
  lex InWord esc quoted token s = Some (emit quoted (token +:+ s) []).
Proof.
  induction s as [| c s IH]; intros esc quoted token Hs; simpl in *.
  - by rewrite append_empty_r.
  - apply andb_true_iff in Hs as [Hc Hs].
    destruct (plain_char_elim _ Hc) as (-> & -> & ->).
    rewrite IH by done. unfold snoc. by rewrite append_assoc.
Qed.

(** ... and up to the next blank, which closes the token. *)
Lemma lex_plain_blank s : forall esc token rest,
  plain s = true ->
  bool_decide (token +:+ s = "") = false ->
  lex InWord esc false token (s +:+ String " "%char rest)
  = cons (token +:+ s) <$> lex InSpace EscInit false "" rest.
Proof.
  induction s as [| c s IH]; intros esc token rest Hs Hne; simpl in *.
  - rewrite append_empty_r in Hne. rewrite Hne. simpl.
    by rewrite append_empty_r.
  - apply andb_true_iff in Hs as [Hc Hs].
    destruct (plain_char_elim _ Hc) as (-> & -> & ->).
    unfold snoc. rewrite IH; rewrite ?append_assoc; done.
Qed.

Lemma lex_word_start c s esc :
  plain_char c = true ->
  lex InSpace esc false "" (String c s)
  = lex InWord esc false (String c "") s.
Proof.
  intros Hc. simpl. by destruct (plain_char_elim _ Hc) as (-> & -> & ->).
Qed.

Lemma lex_unwords ws : forall esc,
  Forall (fun w => word w = true) ws ->
  lex InSpace esc false "" (unwords ws) = Some ws.
Proof.
  induction ws as [| w ws IH]; intros esc Hws; [reflexivity |].
  apply Forall_cons in Hws as [Hw Hws].
  unfold word in Hw. apply andb_true_iff in Hw as [Hne Hw].
  destruct w as [| c w]; [done |]. simpl in Hw.
  apply andb_true_iff in Hw as [Hc Hw].
  destruct ws as [| w' ws].
  - simpl unwords. rewrite lex_word_start by done.
    by rewrite lex_plain_end.
  - change (unwords (String c w :: w' :: ws))
      with (String c (w +:+ String " "%char (unwords (w' :: ws)))).
    rewrite lex_word_start by done.
    rewrite lex_plain_blank by done.
    by rewrite IH.
Qed.

(** Plain words separated by single blanks come back as they are. *)
Lemma split_unwords ws :
  Forall (fun w => word w = true) ws -> split (unwords ws) = Some ws.
Proof. apply lex_unwords. Qed.

(** A blank command has no tokens. *)
Lemma lex_blank s :
  forallb whitespace (list_ascii_of_string s) = true ->
  lex InSpace EscInit false "" s = Some [].
Proof.
  induction s as [| c s IH]; simpl; [done |].
  intros [Hc Hs]%andb_true_iff. rewrite Hc. simpl. by apply IH.
Qed.

(** An opening quote that is never closed is an error. *)
Lemma lex_open_quote s : forall q esc quoted token,
  (forall c, c ∈ list_ascii_of_string s -> c <> q /\ escape c = false) ->
  lex (InQuote q) esc quoted token s = None.
Proof.
  induction s as [| c s IH]; intros q esc quoted token Hs; [reflexivity |].
  simpl. destruct (Hs c) as [Hcq Hce]; [simpl; apply list_elem_of_here |].
  rewrite bool_decide_eq_false_2 by done. rewrite Hce. simpl.
  apply IH. intros c' Hc'. apply Hs. simpl. by apply list_elem_of_further.
Qed.

(** The usual spellings: a command name, its flags, one plain word. *)
Lemma split_mkdir_word P :
  word P = true -> split ("mkdir " +:+ P) = Some ["mkdir"; P].
Proof.
  intros HP. apply (split_unwords ["mkdir"; P]). by repeat constructor.
Qed.

Lemma split_rm_rf_word P :
  word P = true -> split ("rm -rf " +:+ P) = Some ["rm"; "-rf"; P].
Proof.
  intros HP. apply (split_unwords ["rm"; "-rf"; P]). by repeat constructor.
Qed.

Lemma split_blank_command s :
  forallb whitespace (list_ascii_of_string s) = true -> split s = Some [].
Proof. apply lex_blank. Qed.

Lemma split_open_quote q s :
  quotes q = true ->
  (forall c, c ∈ list_ascii_of_string s -> c <> q /\ escape c = false) ->
  split (String q s) = None.
Proof.
  intros [->%bool_decide_eq_true | ->%bool_decide_eq_true]%orb_true_iff Hs;
    by apply lex_open_quote.
Qed.

End Tokenizer.

(** ** Resolution *)

Section Resolution.

Import Realpath PurePath.

Variable fs : filesystem.

Lemma walk_app rest1 : forall path rest2,
  walk fs path (rest1 ++ rest2) = walk fs (walk fs path rest1) rest2.
Proof.
  induction rest1 as [| x rest1 IH]; intros path rest2; simpl; [done |].
  destruct (bool_decide (x = "") || bool_decide (x = ".")); [apply IH |].
  destruct (bool_decide (x = "..")); [apply IH |].
  destruct (fs (path ++ [x])); apply IH.
Qed.

Lemma proper_name_elim x :
  proper_name x = true ->
  bool_decide (x = "") || bool_decide (x = ".") = false
  /\ bool_decide (x = "..") = false /\ has_sep x = false /\ kept x = true.
Proof.
  unfold proper_name, kept.
  rewrite !andb_true_iff, !negb_true_iff, orb_false_iff. tauto.
Qed.

(** Along a physical path the walk only appends. *)
Lemma walk_physical rest : forall path,
  physical_from fs path rest = true -> walk fs path rest = path ++ rest.
Proof.
  induction rest as [| x rest IH]; intros path; simpl.
  - by rewrite app_nil_r.
  - rewrite !andb_true_iff, negb_true_iff. intros [[Hx Hlink] Hrest].
    destruct (proper_name_elim _ Hx) as (-> & -> & _).
    rewrite (IH _ Hrest), <- app_assoc.
    by destruct (fs (path ++ [x])).
Qed.

Lemma physical_from_app rest1 : forall path rest2,
  physical_from fs path (rest1 ++ rest2) = true ->
  physical_from fs path rest1 = true.
Proof.
  induction rest1 as [| x rest1 IH]; intros path rest2; simpl; [done |].
  rewrite !andb_true_iff. intros [Hx Hrest]. split; [done |].
  by apply (IH _ rest2).
Qed.

Lemma physical_from_names rest : forall path,
  physical_from fs path rest = true ->
  Forall (fun x => proper_name x = true) rest.
Proof.
  induction rest as [| x rest IH]; intros path; simpl; [constructor |].
  rewrite !andb_true_iff. intros [[Hx _] Hrest].
  constructor; [done | by apply (IH (path ++ [x]))].
Qed.

Lemma resolve_physical p : physical fs p = true -> resolve fs p = p.
Proof. intros Hp. unfold resolve. by rewrite walk_physical. Qed.

Lemma physical_parent p : physical fs p = true -> physical fs (parent p) = true.
Proof.
  unfold physical, parent. intros Hp.
  destruct (decide (p = [])) as [-> | Hne]; [done |].
  rewrite (app_removelast_last "" Hne) in Hp.
  by apply physical_from_app in Hp.
Qed.

(** From a canonical directory, ".." leads to the parent. *)
Lemma walk_up p rest :
  physical fs p = true ->
  walk fs [] (p ++ ".." :: rest) = walk fs (parent p) rest.
Proof.
  intros Hp. rewrite walk_app. fold (resolve fs p).
  by rewrite resolve_physical.
Qed.

Lemma walk_below p rest :
  physical fs p = true -> walk fs [] (p ++ rest) = walk fs p rest.
Proof.
  intros Hp. rewrite walk_app. fold (resolve fs p).
  by rewrite resolve_physical.
Qed.

End Resolution.

(** ** Spelling a path and reading it back *)

Section Spelling.

Import PurePath.

Lemma split_sep_name x : forall cur s,
  has_sep x = false -> split_sep cur (x +:+ s) = split_sep (cur +:+ x) s.
Proof.
  induction x as [| c x IH]; intros cur s; simpl.
  - by rewrite append_empty_r.
  - rewrite orb_false_iff. intros [Hc Hx].
    rewrite Hc, IH by done. by rewrite append_assoc.
Qed.

Lemma split_sep_slash cur s :
  split_sep cur (String "/"%char s) = cur :: split_sep "" s.
Proof. reflexivity. Qed.

Lemma parts_join_then p : forall s,
  Forall (fun x => proper_name x = true) p ->
  List.filter kept (split_sep "" (join_sep p +:+ String "/"%char s))
  = p ++ List.filter kept (split_sep "" s).
Proof.
  induction p as [| x p IH]; intros s Hp.
  - reflexivity.
  - apply Forall_cons in Hp as [Hx Hp].
    destruct (proper_name_elim _ Hx) as (_ & _ & Hsep & Hkept).
    destruct p as [| y p].
    + simpl join_sep. rewrite split_sep_name, split_sep_slash by done.
      rewrite append_empty_l. simpl. by rewrite Hkept.
    + change (join_sep (x :: y :: p))
        with (x +:+ String "/"%char (join_sep (y :: p))).
      rewrite append_assoc, split_sep_name by done.
      rewrite append_cons, split_sep_slash, append_empty_l.
      simpl List.filter. rewrite Hkept. rewrite IH by done. reflexivity.
Qed.

(** [Path(str(p) + "/" + s)] has the parts of [p], then those of [s]. *)
Lemma parse_parts_str p s :
  Forall (fun x => proper_name x = true) p ->
  parse_parts (str p +:+ String "/"%char s) = p ++ parse_parts s.
Proof.
  intros Hp. unfold parse_parts, str.
  rewrite append_assoc, append_cons, append_empty_l, split_sep_slash.
  simpl List.filter. by apply parts_join_then.
Qed.

Lemma str_startswith_slash p s : startswith (str p +:+ s) "/" = true.
Proof. reflexivity. Qed.

Lemma str_not_flag p s : startswith (str p +:+ s) "-" = false.
Proof. reflexivity. Qed.

End Spelling.

(** ** Verdicts *)

(** C4.  A command whose base executable, the final component of its first
    token compared as it is spelled, belongs to the read-only set is
    allowed whatever its arguments are; none of them is looked at. *)
Theorem read_only_always_allowed (fs : filesystem) (command : string)
    (working_directory approved_directory : Path)
    (token0 : string) (arguments : list string) :
  Shlex.split command = Some (token0 :: arguments) ->
  PurePath.name token0 ∈ _READ_ONLY_COMMANDS ->
  check_bash_directory_boundary fs command working_directory
    approved_directory = Allowed.
Proof.
  intros Hsplit Hro. unfold check_bash_directory_boundary.
  rewrite Hsplit. cbv zeta. by rewrite bool_decide_eq_true_2.
Qed.

Lemma read_only_always_allowed_witness :
  outside (resolve_token fs0 A0 "/etc/passwd") (Realpath.resolve fs0 A0)
  /\ check_bash_directory_boundary fs0 "/bin/cat /etc/passwd" A0 A0 = Allowed.
Proof.
  split; [reflexivity |].
  apply (read_only_always_allowed fs0 "/bin/cat /etc/passwd" A0 A0
           "/bin/cat" ["/etc/passwd"]).
  - reflexivity.
  - by_evaluation.
Defined.

(** C5.  A command that the tokenizer rejects, or that has no token at
    all, is allowed: the check returns a verdict and raises nothing. *)
Theorem unparsed_or_empty_allowed (fs : filesystem) (command : string)
    (working_directory approved_directory : Path) :
  Shlex.split command = None \/ Shlex.split command = Some [] ->
  check_bash_directory_boundary fs command working_directory
    approved_directory = Allowed.
Proof.
  unfold check_bash_directory_boundary. by intros [-> | ->].
Qed.

Lemma unparsed_or_empty_allowed_witness :
  check_bash_directory_boundary fs0 "rm -rf '/etc" A0 A0 = Allowed
  /\ check_bash_directory_boundary fs0 "   " A0 A0 = Allowed.
Proof.
  split.
  - apply (unparsed_or_empty_allowed fs0 "rm -rf '/etc" A0 A0).
    left. reflexivity.
  - apply (unparsed_or_empty_allowed fs0 "   " A0 A0).
    right. reflexivity.
Defined.

(** C6.  A command whose base executable is not [find] and is in neither
    set is allowed at once, without any path check. *)
Theorem unrecognized_allowed (fs : filesystem) (command : string)
    (working_directory approved_directory : Path)
    (token0 : string) (arguments : list string) :
  Shlex.split command = Some (token0 :: arguments) ->
  PurePath.name token0 <> "find" ->
  PurePath.name token0 ∉ _READ_ONLY_COMMANDS ->
  PurePath.name token0 ∉ _FS_MODIFYING_COMMANDS ->
  check_bash_directory_boundary fs command working_directory
    approved_directory = Allowed.
Proof.
  intros Hsplit Hfind Hro Hmod. unfold check_bash_directory_boundary.
  rewrite Hsplit. cbv zeta.
  rewrite (bool_decide_eq_false_2 _ Hro), (bool_decide_eq_false_2 _ Hfind).
  by rewrite (bool_decide_eq_false_2 _ Hmod).
Qed.

Lemma unrecognized_allowed_witness :
  outside (resolve_token fs0 A0 "/etc/passwd") (Realpath.resolve fs0 A0)
  /\ check_bash_directory_boundary fs0 "shred -u /etc/passwd" A0 A0 = Allowed.
Proof.
  split; [reflexivity |].
  apply (unrecognized_allowed fs0 "shred -u /etc/passwd" A0 A0
           "shred" ["-u"; "/etc/passwd"]).
  - reflexivity.
  - by_evaluation.
  - by_evaluation.
  - by_evaluation.
Defined.

(** C7.  For a command whose base executable is exactly [find]: when no
    token after the first is one of -delete, -exec, -execdir, -ok, -okdir
    it is allowed at once; when one is, the verdict is that of the path
    check run over all the tokens after the first. *)
Theorem find_classification (fs : filesystem) (command : string)
    (working_directory approved_directory : Path)
    (token0 : string) (arguments : list string) :
  Shlex.split command = Some (token0 :: arguments) ->
  PurePath.name token0 = "find" ->
  ((forall t, t ∈ arguments -> t ∉ _FIND_MUTATING_ACTIONS) ->
   check_bash_directory_boundary fs command working_directory
     approved_directory = Allowed)
  /\ ((exists t, t ∈ arguments /\ t ∈ _FIND_MUTATING_ACTIONS) ->
      check_bash_directory_boundary fs command working_directory
        approved_directory
      = check_arguments fs "find" working_directory
          (Realpath.resolve fs approved_directory) arguments).
Proof.
  intros Hsplit Hfind. split.
  - intros Hnone. unfold check_bash_directory_boundary.
    rewrite Hsplit. cbv zeta. rewrite Hfind.
    rewrite (bool_decide_eq_false_2 _ find_not_read_only).
    rewrite bool_decide_eq_true_2 by reflexivity.
    destruct (existsb _ arguments) eqn:Hex; [| reflexivity].
    apply existsb_mutating in Hex as (t & Hin & Ht).
    by destruct (Hnone t Hin).
  - intros Hsome. rewrite <- Hfind.
    apply (path_checked_verdict fs _ _ command token0 arguments Hsplit).
    right. by rewrite Hfind.
Qed.

Lemma find_classification_witness :
  check_bash_directory_boundary fs0 "find . -name '*.py'" A0 A0 = Allowed
  /\ check_bash_directory_boundary fs0 "find . -delete" A0 A0 = Allowed
  /\ check_bash_directory_boundary fs0 "find . -delete" ["tmp"] A0
     = Denied (violation "find" "." A0).
Proof.
  split_and!.
  - apply (proj1 (find_classification fs0 "find . -name '*.py'" A0 A0
                      "find" ["."; "-name"; "*.py"] eq_refl eq_refl)).
    intros t Ht. apply list_elem_of_In in Ht. simpl in Ht.
    destruct Ht as [<- | [<- | [<- | []]]]; by_evaluation.
  - rewrite (proj2 (find_classification fs0 "find . -delete" A0 A0
                      "find" ["."; "-delete"] eq_refl eq_refl)).
    + reflexivity.
    + exists "-delete". split.
      * apply list_elem_of_further, list_elem_of_here.
      * by_evaluation.
  - rewrite (proj2 (find_classification fs0 "find . -delete" ["tmp"] A0
                      "find" ["."; "-delete"] eq_refl eq_refl)).
    + reflexivity.
    + exists "-delete". split.
      * apply list_elem_of_further, list_elem_of_here.
      * by_evaluation.
Defined.

(** C10.  A command whose base executable is in the filesystem-modifying
    set and whose remaining tokens all begin with "-" (or that has none)
    is allowed: no token reaches the containment test. *)
Theorem flags_only_allowed (fs : filesystem) (command : string)
    (working_directory approved_directory : Path)
    (token0 : string) (arguments : list string) :
  Shlex.split command = Some (token0 :: arguments) ->
  PurePath.name token0 ∈ _FS_MODIFYING_COMMANDS ->
  Forall is_flag arguments ->
  check_bash_directory_boundary fs command working_directory
    approved_directory = Allowed.
Proof.
  intros Hsplit Hmod Hflags.
  rewrite (path_checked_verdict fs _ _ command token0 arguments Hsplit)
    by (by left).
  apply loop_all_pass. eapply Forall_impl; [exact Hflags |].
  intros t Ht. by left.
Qed.

Lemma flags_only_allowed_witness :
  check_bash_directory_boundary fs0 "rm -rf --no-preserve-root" ["tmp"] A0
  = Allowed.
Proof.
  apply (flags_only_allowed fs0 "rm -rf --no-preserve-root" ["tmp"] A0
           "rm" ["-rf"; "--no-preserve-root"]).
  - reflexivity.
  - by_evaluation.
  - repeat constructor.
Defined.

(** C8.  In a command that is path-checked, tokens beginning with "-" are
    skipped and are never taken for paths; and the first candidate whose
    resolved path is neither the approved root nor below it ends the check
    at once: whatever follows it, the verdict is Denied with the reason
    "Directory boundary violation: '<command>' targets '<argument>' which
    is outside approved directory '<approved_root>'". *)
Theorem first_violation_denied (fs : filesystem) (command : string)
    (working_directory approved_directory : Path)
    (token0 : string) (arguments : list string) :
  Shlex.split command = Some (token0 :: arguments) ->
  path_checked (PurePath.name token0) arguments ->
  check_bash_directory_boundary fs command working_directory
    approved_directory
  = check_arguments fs (PurePath.name token0) working_directory
      (Realpath.resolve fs approved_directory)
      (List.filter (fun t => negb (startswith t "-")) arguments)
  /\ forall before token after,
       arguments = before ++ token :: after ->
       Forall (passes fs working_directory
                 (Realpath.resolve fs approved_directory)) before ->
       ~ is_flag token ->
       outside (resolve_token fs working_directory token)
         (Realpath.resolve fs approved_directory) ->
       check_bash_directory_boundary fs command working_directory
         approved_directory
       = Denied ("Directory boundary violation: '" +:+ PurePath.name token0
                 +:+ "' targets '" +:+ token
                 +:+ "' which is outside approved directory '"
                 +:+ PurePath.str (Realpath.resolve fs approved_directory)
                 +:+ "'").
Proof.
  intros Hsplit Hpc.
  rewrite (path_checked_verdict fs _ _ command token0 arguments Hsplit Hpc).
  split.
  - apply loop_without_flags.
  - intros before token after -> Hbefore Hflag Hout.
    by apply loop_first_violation.
Qed.

Lemma first_violation_denied_witness :
  check_bash_directory_boundary fs0 "cp -r src --target=/x /etc/y /tmp/z" A0 A0
  = Denied "Directory boundary violation: 'cp' targets '/etc/y' which is outside approved directory '/home/a'".
Proof.
  assert (Hpc : path_checked (PurePath.name "cp")
                  ["-r"; "src"; "--target=/x"; "/etc/y"; "/tmp/z"])
    by (left; by_evaluation).
  apply (proj2 (first_violation_denied fs0
                  "cp -r src --target=/x /etc/y /tmp/z" A0 A0 "cp"
                  ["-r"; "src"; "--target=/x"; "/etc/y"; "/tmp/z"] eq_refl
                  Hpc)
           ["-r"; "src"; "--target=/x"] "/etc/y" ["/tmp/z"]).
  - reflexivity.
  - constructor; [left; reflexivity |].
    constructor; [right; reflexivity |].
    constructor; [left; reflexivity |].
    constructor.
  - discriminate.
  - reflexivity.
Defined.

(** C2.  For a path [P] that resolves strictly inside the approved
    directory, the command [mkdir P] is allowed.  The command is any line
    that reads as the two words [mkdir] and [P]; the text "mkdir P" is one
    when [P] has no blank, quote or backslash ([split_mkdir_word]). *)
Theorem mkdir_inside_allowed (fs : filesystem) (command : string)
    (working_directory approved_directory : Path) (P : string) :
  Shlex.split command = Some ["mkdir"; P] ->
  strictly_inside (resolve_token fs working_directory P)
    (Realpath.resolve fs approved_directory) ->
  check_bash_directory_boundary fs command working_directory
    approved_directory = Allowed.
Proof.
  intros Hsplit [Hin _].
  rewrite (path_checked_verdict fs _ _ command "mkdir" [P] Hsplit).
  - apply loop_all_pass. constructor; [by right | constructor].
  - left. by_evaluation.
Qed.

Lemma mkdir_inside_allowed_witness :
  Shlex.split ("mkdir " +:+ "docs/new") = Some ["mkdir"; "docs/new"]
  /\ strictly_inside (resolve_token fs0 A0 "docs/new") (Realpath.resolve fs0 A0)
  /\ check_bash_directory_boundary fs0 ("mkdir " +:+ "docs/new") A0 A0
     = Allowed.
Proof.
  assert (Hsplit :
    Shlex.split ("mkdir " +:+ "docs/new") = Some ["mkdir"; "docs/new"])
    by reflexivity.
  assert (Hin :
    strictly_inside (resolve_token fs0 A0 "docs/new") (Realpath.resolve fs0 A0))
    by (split; [reflexivity | discriminate]).
  split_and!; [exact Hsplit | exact Hin |].
  exact (mkdir_inside_allowed fs0 ("mkdir " +:+ "docs/new") A0 A0 "docs/new"
           Hsplit Hin).
Defined.

(** C1, as stated, fails for a path that begins with "-": the loop takes
    it for a flag and skips it.  Here the working directory /tmp lies
    outside the approved /home/a, so does /tmp/-x, and [rm -rf -x] is
    allowed. *)
Lemma rm_outside_dash_path_allowed :
  outside (resolve_token fs0 ["tmp"] "-x") (Realpath.resolve fs0 A0)
  /\ resolve_token fs0 ["tmp"] "-x" <> Realpath.resolve fs0 A0
  /\ check_bash_directory_boundary fs0 ("rm -rf " +:+ "-x") ["tmp"] A0
     = Allowed
  /\ forall reason,
       check_bash_directory_boundary fs0 ("rm -rf " +:+ "-x") ["tmp"] A0
       <> Denied reason.
Proof. split_and!; [reflexivity | discriminate | reflexivity | discriminate]. Qed.

(** C1, amended.  For a path [P] that does not begin with "-" and that
    resolves strictly outside the approved directory, the command
    [rm -rf P] is denied, and the reason names [rm] and [P].  The command
    is any line that reads as the words [rm], [-rf] and [P]
    ([split_rm_rf_word]). *)
Theorem rm_outside_denied (fs : filesystem) (command : string)
    (working_directory approved_directory : Path) (P : string) :
  Shlex.split command = Some ["rm"; "-rf"; P] ->
  ~ is_flag P ->
  outside (resolve_token fs working_directory P)
    (Realpath.resolve fs approved_directory) ->
  check_bash_directory_boundary fs command working_directory
    approved_directory
  = Denied ("Directory boundary violation: '" +:+ "rm" +:+ "' targets '"
            +:+ P +:+ "' which is outside approved directory '"
            +:+ PurePath.str (Realpath.resolve fs approved_directory)
            +:+ "'").
Proof.
  intros Hsplit Hflag Hout.
  rewrite (path_checked_verdict fs _ _ command "rm" ["-rf"; P] Hsplit).
  - apply (loop_first_violation fs _ _ _ ["-rf"] P []); [| done | done].
    constructor; [by left | constructor].
  - left. by_evaluation.
Qed.

Lemma rm_outside_denied_witness :
  check_bash_directory_boundary fs0 ("rm -rf " +:+ "../b") A0 A0
  = Denied "Directory boundary violation: 'rm' targets '../b' which is outside approved directory '/home/a'".
Proof.
  apply (rm_outside_denied fs0 ("rm -rf " +:+ "../b") A0 A0 "../b").
  - reflexivity.
  - discriminate.
  - reflexivity.
Defined.

(** ** Further properties of the check *)

Section Further.

Variable fs : filesystem.

Lemma checks_paths_spec base arguments :
  checks_paths base arguments = true <-> path_checked base arguments.
Proof.
  unfold checks_paths, path_checked. split.
  - intros [Hro Hgo]%andb_true_iff. case_bool_decide as Hfind.
    + right. split; [done |]. by apply existsb_mutating.
    + left. by apply bool_decide_eq_true in Hgo.
  - intros [Hmod | [-> Hact]].
    + destruct (fs_modifying_cases _ Hmod) as (-> & -> & ->). reflexivity.
    + rewrite (bool_decide_eq_false_2 _ find_not_read_only).
      rewrite bool_decide_eq_true_2 by reflexivity.
      by apply existsb_mutating.
Qed.

(** The whole function, once the command is split. *)
Lemma check_by_class command working_directory approved_directory
    token0 arguments :
  Shlex.split command = Some (token0 :: arguments) ->
  check_bash_directory_boundary fs command working_directory
    approved_directory
  = if checks_paths (PurePath.name token0) arguments
    then check_arguments fs (PurePath.name token0) working_directory
           (Realpath.resolve fs approved_directory) arguments
    else Allowed.
Proof.
  intros Hsplit. unfold check_bash_directory_boundary, checks_paths.
  rewrite Hsplit. cbv zeta.
  destruct (bool_decide (_ ∈ _READ_ONLY_COMMANDS)); [reflexivity |].
  destruct (bool_decide (_ = "find")); simpl.
  - by destruct (existsb _ arguments).
  - by destruct (bool_decide (_ ∈ _FS_MODIFYING_COMMANDS)).
Qed.

Lemma loop_allowed_inv base working_directory resolved_approved tokens :
  check_arguments fs base working_directory resolved_approved tokens
  = Allowed ->
  Forall (passes fs working_directory resolved_approved) tokens.
Proof.
  induction tokens as [| token tokens IH]; [constructor |].
  simpl. destruct (startswith token "-") eqn:Hflag.
  - intros H. constructor; [by left | by apply IH].
  - destruct (PurePath.is_relative_to _ _) eqn:Hin; [| discriminate].
    intros H. constructor; [by right | by apply IH].
Qed.

Lemma inside_widen resolved approved wider :
  inside resolved approved -> inside approved wider -> inside resolved wider.
Proof.
  unfold inside, PurePath.is_relative_to.
  rewrite !bool_decide_eq_true. intros H1 H2. by etrans.
Qed.

Lemma passes_widen working_directory approved wider token :
  inside approved wider ->
  passes fs working_directory approved token ->
  passes fs working_directory wider token.
Proof.
  intros Hw [Hflag | Hin]; [by left | right]. by eapply inside_widen.
Qed.

Lemma resolve_token_absolute wd1 wd2 token :
  startswith token "/" = true ->
  resolve_token fs wd1 token = resolve_token fs wd2 token.
Proof. unfold resolve_token. by intros ->. Qed.

Lemma loop_absolute base wd1 wd2 resolved_approved tokens :
  Forall absolute_or_flag tokens ->
  check_arguments fs base wd1 resolved_approved tokens
  = check_arguments fs base wd2 resolved_approved tokens.
Proof.
  induction 1 as [| token tokens Htoken _ IH]; [reflexivity |].
  simpl. destruct (startswith token "-") eqn:Hflag; [done |].
  destruct Htoken as [Hf | Habs]; [unfold is_flag in Hf; congruence |].
  rewrite (resolve_token_absolute wd1 wd2) by done. by rewrite IH.
Qed.

End Further.

(** X1.  A path-checked command is allowed exactly when each of its
    arguments begins with "-" or resolves to the approved directory or
    below it. *)
Theorem path_checked_allowed_iff (fs : filesystem) (command : string)
    (working_directory approved_directory : Path)
    (token0 : string) (arguments : list string) :
  Shlex.split command = Some (token0 :: arguments) ->
  path_checked (PurePath.name token0) arguments ->
  check_bash_directory_boundary fs command working_directory
    approved_directory = Allowed
  <-> Forall (passes fs working_directory
                (Realpath.resolve fs approved_directory)) arguments.
Proof.
  intros Hsplit Hpc.
  rewrite (path_checked_verdict fs _ _ command token0 arguments Hsplit Hpc).
  split; [apply loop_allowed_inv | apply loop_all_pass].
Qed.

Lemma path_checked_allowed_iff_witness :
  check_bash_directory_boundary fs0 "cp -r notes sub/../copy" A0 A0 = Allowed
  /\ ~ Forall (passes fs0 A0 (Realpath.resolve fs0 A0)) ["-r"; "out/copy"].
Proof.
  assert (Hcp : path_checked (PurePath.name "cp") ["-r"; "notes"; "sub/../copy"])
    by (left; by_evaluation).
  assert (Hcp' : path_checked (PurePath.name "cp") ["-r"; "out/copy"])
    by (left; by_evaluation).
  split.
  - apply (path_checked_allowed_iff fs0 "cp -r notes sub/../copy" A0 A0
             "cp" ["-r"; "notes"; "sub/../copy"] eq_refl Hcp).
    constructor; [left; reflexivity |].
    constructor; [right; reflexivity |].
    constructor; [right; reflexivity | constructor].
  - intros Hall.
    apply (path_checked_allowed_iff fs0 "cp -r out/copy" A0 A0
             "cp" ["-r"; "out/copy"] eq_refl Hcp') in Hall.
    discriminate Hall.
Defined.

(** X2.  Only a path-checked command is ever denied: the base executable
    is one of the nine filesystem-modifying commands, or it is [find] with
    one of its mutating actions among the arguments. *)
Theorem denied_only_when_path_checked (fs : filesystem) (command : string)
    (working_directory approved_directory : Path) (reason : string) :
  check_bash_directory_boundary fs command working_directory
    approved_directory = Denied reason ->
  exists token0 arguments,
    Shlex.split command = Some (token0 :: arguments)
    /\ path_checked (PurePath.name token0) arguments.
Proof.
  intros Hden.
  destruct (Shlex.split command) as [[| token0 arguments] |] eqn:Hsplit.
  - unfold check_bash_directory_boundary in Hden. by rewrite Hsplit in Hden.
  - exists token0, arguments. split; [done |].
    apply checks_paths_spec.
    rewrite (check_by_class fs _ _ _ _ _ Hsplit) in Hden.
    by destruct (checks_paths _ _).
  - unfold check_bash_directory_boundary in Hden. by rewrite Hsplit in Hden.
Qed.

Lemma denied_only_when_path_checked_witness :
  exists token0 arguments,
    Shlex.split "find /etc -name passwd -delete" = Some (token0 :: arguments)
    /\ path_checked (PurePath.name token0) arguments.
Proof.
  apply (denied_only_when_path_checked fs0 "find /etc -name passwd -delete"
           A0 A0 (violation "find" "/etc" A0)).
  reflexivity.
Defined.

(** X3.  Widening the approved directory never turns an allowed command
    into a denied one: what is allowed for an approved directory is
    allowed for every directory that contains it. *)
Theorem widening_keeps_allowed (fs : filesystem) (command : string)
    (working_directory approved_directory wider_directory : Path) :
  inside (Realpath.resolve fs approved_directory)
    (Realpath.resolve fs wider_directory) ->
  check_bash_directory_boundary fs command working_directory
    approved_directory = Allowed ->
  check_bash_directory_boundary fs command working_directory
    wider_directory = Allowed.
Proof.
  intros Hwider.
  destruct (Shlex.split command) as [[| token0 arguments] |] eqn:Hsplit.
  - unfold check_bash_directory_boundary. by rewrite Hsplit.
  - rewrite !(check_by_class fs _ _ _ _ _ Hsplit).
    destruct (checks_paths _ _); [| done].
    intros Hall%loop_allowed_inv. apply loop_all_pass.
    eapply Forall_impl; [exact Hall |].
    intros token. by apply passes_widen.
  - unfold check_bash_directory_boundary. by rewrite Hsplit.
Qed.

Lemma widening_keeps_allowed_witness :
  check_bash_directory_boundary fs0 "mv draft.txt sub/final.txt" A0 ["home"]
  = Allowed.
Proof.
  apply (widening_keeps_allowed fs0 "mv draft.txt sub/final.txt" A0 A0
           ["home"]); reflexivity.
Defined.

(** X4.  When every argument begins with "-" or with "/", the working
    directory has no part in the verdict. *)
Theorem absolute_arguments_ignore_working_directory (fs : filesystem)
    (command : string) (wd1 wd2 approved_directory : Path)
    (token0 : string) (arguments : list string) :
  Shlex.split command = Some (token0 :: arguments) ->
  Forall absolute_or_flag arguments ->
  check_bash_directory_boundary fs command wd1 approved_directory
  = check_bash_directory_boundary fs command wd2 approved_directory.
Proof.
  intros Hsplit Habs. rewrite !(check_by_class fs _ _ _ _ _ Hsplit).
  destruct (checks_paths _ _); [| done]. by apply loop_absolute.
Qed.

Lemma absolute_arguments_ignore_working_directory_witness :
  check_bash_directory_boundary fs0 "rm -rf /home/a/x /etc/y" ["tmp"] A0
  = check_bash_directory_boundary fs0 "rm -rf /home/a/x /etc/y" A0 A0.
Proof.
  apply (absolute_arguments_ignore_working_directory fs0
           "rm -rf /home/a/x /etc/y" ["tmp"] A0 A0
           "rm" ["-rf"; "/home/a/x"; "/etc/y"] eq_refl).
  constructor; [left; reflexivity |].
  constructor; [right; reflexivity |].
  constructor; [right; reflexivity | constructor].
Defined.

(** ** The executable's own path *)

Section Executable.

Import PurePath.

Lemma split_sep_nonempty s : forall cur, split_sep cur s <> [].
Proof.
  induction s as [| c s IH]; intros cur; simpl; [done |].
  destruct (bool_decide (c = "/"%char)); [done | apply IH].
Qed.

(** Reading on after [d]: the component open at the end of [d] goes on. *)
Lemma split_sep_app d : forall cur s,
  split_sep cur (d +:+ s)
  = removelast (split_sep cur d)
    ++ split_sep (List.last (split_sep cur d) "") s.
Proof.
  induction d as [| c d IH]; intros cur s; [reflexivity |].
  rewrite append_cons. simpl split_sep.
  destruct (bool_decide (c = "/"%char)); [| apply IH].
  rewrite IH. pose proof (split_sep_nonempty d "") as Hne.
  destruct (split_sep "" d) as [| x l]; [done |]. reflexivity.
Qed.

Lemma split_sep_proper b cur :
  has_sep b = false -> split_sep cur b = [cur +:+ b].
Proof.
  intros Hb. rewrite <- (append_empty_r b) at 1.
  by rewrite split_sep_name.
Qed.

Lemma parse_parts_proper b : proper_name b = true -> parse_parts b = [b].
Proof.
  intros Hb. destruct (proper_name_elim _ Hb) as (_ & _ & Hsep & Hkept).
  unfold parse_parts. rewrite split_sep_proper, append_empty_l by done.
  simpl. by rewrite Hkept.
Qed.

Lemma name_proper b : proper_name b = true -> name b = b.
Proof. intros Hb. unfold name. by rewrite parse_parts_proper. Qed.

(** [Path(d + "/" + b).name] is [b], whatever the directory part. *)
Lemma name_prefixed d b :
  proper_name b = true -> name (d +:+ String "/"%char b) = b.
Proof.
  intros Hb. destruct (proper_name_elim _ Hb) as (_ & _ & Hsep & Hkept).
  unfold name, parse_parts.
  rewrite split_sep_app, split_sep_slash, (split_sep_proper b) by done.
  rewrite append_empty_l.
  change (?x :: [b]) with ([x] ++ [b]).
  rewrite !List.filter_app. simpl (List.filter kept [b]). rewrite Hkept.
  by rewrite !app_assoc, last_last.
Qed.

Lemma proper_name_relative b :
  proper_name b = true -> startswith b "/" = false.
Proof.
  intros Hb. destruct (proper_name_elim _ Hb) as (_ & _ & Hsep & _).
  destruct b as [| c b]; [reflexivity |]. simpl in Hsep.
  apply orb_false_iff in Hsep as [Hc _].
  unfold startswith. apply bool_decide_eq_false in Hc.
  rewrite bool_decide_eq_false_2; [reflexivity | congruence].
Qed.

End Executable.

(** X5.  Only the final component of the first token is classified: an
    executable written with any directory in front, [d/b], gets the
    verdict of the bare name [b] with the same arguments. *)
Theorem executable_directory_ignored (fs : filesystem)
    (command1 command2 : string) (working_directory approved_directory : Path)
    (d b : string) (arguments : list string) :
  proper_name b = true ->
  Shlex.split command1 = Some ((d +:+ String "/"%char b) :: arguments) ->
  Shlex.split command2 = Some (b :: arguments) ->
  check_bash_directory_boundary fs command1 working_directory
    approved_directory
  = check_bash_directory_boundary fs command2 working_directory
      approved_directory.
Proof.
  intros Hb Hsplit1 Hsplit2.
  rewrite (check_by_class fs _ _ _ _ _ Hsplit1).
  rewrite (check_by_class fs _ _ _ _ _ Hsplit2).
  by rewrite name_prefixed, name_proper.
Qed.

Lemma executable_directory_ignored_witness :
  check_bash_directory_boundary fs0 "../../usr/bin/rm -rf /etc" A0 A0
  = check_bash_directory_boundary fs0 "rm -rf /etc" A0 A0.
Proof.
  apply (executable_directory_ignored fs0 "../../usr/bin/rm -rf /etc"
           "rm -rf /etc" A0 A0 "../../usr/bin" "rm" ["-rf"; "/etc"]);
    reflexivity.
Defined.

(** ** Commands the tokenizer gives up on *)

Section FailOpen.

Import Shlex.

Lemma lex_unquoted_then c : forall rest,
  unquoted c = true -> unreadable rest -> unreadable (c +:+ rest).
Proof.
  induction c as [| ch c IH]; intros rest Hc Hrest; [done |].
  simpl in Hc. apply andb_true_iff in Hc as [Hch Hc].
  apply andb_true_iff in Hch as [Hq He].
  apply negb_true_iff in Hq, He.
  specialize (IH rest Hc Hrest).
  intros esc quoted token. rewrite append_cons. simpl. rewrite Hq, He.
  destruct (whitespace ch).
  - destruct (quoted || negb (bool_decide (token = ""))).
    + by rewrite (proj1 (IH EscInit false "")).
    + split; apply IH.
  - split; apply IH.
Qed.

Lemma lex_single_quote_open s : forall esc quoted token,
  lacks "'"%char s = true ->
  lex (InQuote "'"%char) esc quoted token s = None.
Proof.
  induction s as [| c s IH]; intros esc quoted token Hs; [reflexivity |].
  simpl in Hs. apply andb_true_iff in Hs as [Hc Hs].
  apply negb_true_iff in Hc. simpl. rewrite Hc.
  change (escapedquotes "'"%char) with false. rewrite andb_false_r.
  by apply IH.
Qed.

Lemma unreadable_open_quote s :
  lacks "'"%char s = true -> unreadable (String "'"%char s).
Proof.
  intros Hs esc quoted token. split; simpl; by apply lex_single_quote_open.
Qed.

Lemma unreadable_backslash : unreadable "\".
Proof. intros esc quoted token. by split. Qed.

End FailOpen.

(** X6.  A command free of quotes and backslashes is allowed as soon as it
    is followed by a single quote that is never closed, or by a lone
    backslash: the tokenizer gives up and the check lets the command
    through, whatever it names. *)
Theorem unfinished_quoting_allowed (fs : filesystem) (command rest : string)
    (working_directory approved_directory : Path) :
  unquoted command = true ->
  lacks "'"%char rest = true ->
  check_bash_directory_boundary fs (command +:+ String "'"%char rest)
    working_directory approved_directory = Allowed
  /\ check_bash_directory_boundary fs (command +:+ "\")
       working_directory approved_directory = Allowed.
Proof.
  intros Hcommand Hrest. unfold check_bash_directory_boundary, Shlex.split.
  rewrite (proj1 (lex_unquoted_then command _ Hcommand
                    (unreadable_open_quote rest Hrest) _ _ _)).
  by rewrite (proj1 (lex_unquoted_then command _ Hcommand
                       unreadable_backslash _ _ _)).
Qed.

Lemma unfinished_quoting_allowed_witness :
  check_bash_directory_boundary fs0 "rm -rf /etc/passwd" A0 A0
  = Denied (violation "rm" "/etc/passwd" A0)
  /\ check_bash_directory_boundary fs0 "rm -rf /etc/passwd 'x y" A0 A0
     = Allowed
  /\ check_bash_directory_boundary fs0 "rm -rf /etc/passwd \" A0 A0
     = Allowed.
Proof.
  split; [reflexivity |].
  split.
  - apply (unfinished_quoting_allowed fs0 "rm -rf /etc/passwd " "x y" A0 A0);
      reflexivity.
  - apply (unfinished_quoting_allowed fs0 "rm -rf /etc/passwd " "" A0 A0);
      reflexivity.
Defined.

(** ** Arguments below the working directory *)

Section Below.

Import Realpath PurePath.

Variable fs : filesystem.

Lemma physical_from_join rest1 : forall path rest2,
  physical_from fs path rest1 = true ->
  physical_from fs (path ++ rest1) rest2 = true ->
  physical_from fs path (rest1 ++ rest2) = true.
Proof.
  induction rest1 as [| x rest1 IH]; intros path rest2; simpl.
  - by rewrite app_nil_r.
  - rewrite !andb_true_iff. intros [Hx H1] H2. split; [done |].
    apply IH; [done |]. by rewrite <- app_assoc.
Qed.

Lemma resolve_token_below working_directory token :
  physical fs working_directory = true ->
  names_below fs working_directory token ->
  resolve_token fs working_directory token
  = working_directory ++ parse_parts token.
Proof.
  intros Hwd [Hrel Hparts]. unfold resolve_token, joinpath. rewrite Hrel.
  apply resolve_physical. unfold physical.
  by apply physical_from_join.
Qed.

Lemma resolve_token_link working_directory l dest :
  physical fs working_directory = true ->
  proper_name l = true ->
  fs (working_directory ++ [l]) = Link dest ->
  resolve_token fs working_directory l = dest.
Proof.
  intros Hwd Hl Hlink. unfold resolve_token, joinpath.
  rewrite proper_name_relative, parse_parts_proper by done.
  unfold resolve. rewrite walk_below by done. simpl.
  destruct (proper_name_elim _ Hl) as (-> & -> & _). by rewrite Hlink.
Qed.

End Below.



(** X8.  An argument that names a symbolic link sitting directly in the
    canonical working directory is judged by where the link leads: the
    command is allowed when the destination is the approved directory or
    below it, and denied otherwise, wherever the link itself sits. *)
Theorem link_judged_by_destination (fs : filesystem) (command : string)
    (working_directory approved_directory : Path)
    (token0 l : string) (dest : Path) :
  physical fs working_directory = true ->
  proper_name l = true ->
  ~ is_flag l ->
  fs (working_directory ++ [l]) = Link dest ->
  Shlex.split command = Some [token0; l] ->
  path_checked (PurePath.name token0) [l] ->
  check_bash_directory_boundary fs command working_directory
    approved_directory
  = if PurePath.is_relative_to dest (Realpath.resolve fs approved_directory)
    then Allowed
    else Denied (violation (PurePath.name token0) l
                   (Realpath.resolve fs approved_directory)).
Proof.
  intros Hwd Hl Hflag Hlink Hsplit Hpc.
  rewrite (path_checked_verdict fs _ _ command token0 [l] Hsplit Hpc).
  pose proof (resolve_token_link fs _ _ _ Hwd Hl Hlink) as Hres.
  destruct (PurePath.is_relative_to dest _) eqn:Hdest.
  - apply loop_all_pass. constructor; [| constructor].
    right. unfold inside. by rewrite Hres.
  - apply loop_violation; [done |]. unfold outside. by rewrite Hres.
Qed.

Lemma link_judged_by_destination_witness :
  inside (A0 ++ ["out"]) (Realpath.resolve fs0 A0)
  /\ check_bash_directory_boundary fs0 "rm out" A0 A0
     = Denied (violation "rm" "out" A0).
Proof.
  split; [reflexivity |].
  assert (Hrm : path_checked (PurePath.name "rm") ["out"])
    by (left; by_evaluation).
  apply (link_judged_by_destination fs0 "rm out" A0 A0 "rm" "out" ["etc"]);
    [reflexivity | reflexivity | discriminate | reflexivity | reflexivity
    | exact Hrm].
Defined.

(** ** Order and number of the arguments *)

Section Order.

Variable fs : filesystem.

Lemma forallb_permutation (f : string -> bool) l1 l2 :
  l1 ≡ₚ l2 -> forallb f l1 = forallb f l2.
Proof.
  induction 1 as [| x l1 l2 _ IH | x y l | l1 l2 l3 _ IH1 _ IH2]; simpl.
  - reflexivity.
  - by rewrite IH.
  - by destruct (f x), (f y).
  - by rewrite IH1.
Qed.

Lemma existsb_permutation (f : string -> bool) l1 l2 :
  l1 ≡ₚ l2 -> existsb f l1 = existsb f l2.
Proof.
  induction 1 as [| x l1 l2 _ IH | x y l | l1 l2 l3 _ IH1 _ IH2]; simpl.
  - reflexivity.
  - by rewrite IH.
  - by destruct (f x), (f y).
  - by rewrite IH1.
Qed.

(** Whether the loop allows is a conjunction over the tokens. *)
Lemma loop_allows base working_directory resolved_approved tokens :
  fst (check_arguments fs base working_directory resolved_approved tokens)
  = forallb (fun t =>
       startswith t "-"
       || PurePath.is_relative_to (resolve_token fs working_directory t)
            resolved_approved) tokens.
Proof.
  induction tokens as [| token tokens IH]; [reflexivity |].
  simpl. destruct (startswith token "-"); [done |].
  by destruct (PurePath.is_relative_to _ _).
Qed.

Lemma checks_paths_permutation base l1 l2 :
  l1 ≡ₚ l2 -> checks_paths base l1 = checks_paths base l2.
Proof.
  intros Hp. unfold checks_paths. by rewrite (existsb_permutation _ _ _ Hp).
Qed.

Lemma loop_denied_app base working_directory resolved_approved
    tokens more reason :
  check_arguments fs base working_directory resolved_approved tokens
  = Denied reason ->
  check_arguments fs base working_directory resolved_approved
    (tokens ++ more) = Denied reason.
Proof.
  induction tokens as [| token tokens IH]; [discriminate |].
  simpl. destruct (startswith token "-"); [done |].
  by destruct (PurePath.is_relative_to _ _).
Qed.

Lemma checks_paths_app base tokens more :
  checks_paths base tokens = true ->
  checks_paths base (tokens ++ more) = true.
Proof.
  unfold checks_paths. rewrite existsb_app.
  destruct (negb _); [simpl | done].
  destruct (bool_decide (base = "find")); [| done].
  by intros ->.
Qed.

End Order.

(** X10.  A denial cannot be undone by writing more arguments after the
    command: with further tokens appended the verdict is the same denial,
    with the same reason. *)
Theorem appended_arguments_keep_denial (fs : filesystem)
    (command1 command2 : string) (working_directory approved_directory : Path)
    (token0 : string) (arguments more : list string) (reason : string) :
  Shlex.split command1 = Some (token0 :: arguments) ->
  Shlex.split command2 = Some (token0 :: arguments ++ more) ->
  check_bash_directory_boundary fs command1 working_directory
    approved_directory = Denied reason ->
  check_bash_directory_boundary fs command2 working_directory
    approved_directory = Denied reason.
Proof.
  intros Hsplit1 Hsplit2.
  rewrite (check_by_class fs _ _ _ _ _ Hsplit1).
  rewrite (check_by_class fs _ _ _ _ _ Hsplit2).
  destruct (checks_paths _ arguments) eqn:Hclass; [| discriminate].
  rewrite (checks_paths_app _ _ more Hclass).
  apply loop_denied_app.
Qed.

Lemma appended_arguments_keep_denial_witness :
  check_bash_directory_boundary fs0 "rm /etc/passwd -- notes 'a b'" A0 A0
  = Denied (violation "rm" "/etc/passwd" A0).
Proof.
  apply (appended_arguments_keep_denial fs0 "rm /etc/passwd"
           "rm /etc/passwd -- notes 'a b'" A0 A0 "rm" ["/etc/passwd"]
           ["--"; "notes"; "a b"]); reflexivity.
Defined.

(** ** Quoted arguments *)

Section Quoted.

Import Shlex.

Lemma lex_single_quoted P : forall esc quoted token rest,
  lacks "'"%char P = true ->
  lex (InQuote "'"%char) esc quoted token (P +:+ String "'"%char rest)
  = lex InWord esc true (token +:+ P) rest.
Proof.
  induction P as [| c P IH]; intros esc quoted token rest HP.
  - rewrite append_empty_l, append_empty_r. reflexivity.
  - simpl in HP. apply andb_true_iff in HP as [Hc HP].
    apply negb_true_iff in Hc. rewrite append_cons. simpl. rewrite Hc.
    change (escapedquotes "'"%char) with false. rewrite andb_false_r.
    rewrite IH by done. unfold snoc. by rewrite append_assoc.
Qed.

Lemma lex_unwords_then ws : forall esc rest,
  ws <> [] ->
  Forall (fun w => word w = true) ws ->
  lex InSpace esc false "" (unwords ws +:+ String " "%char rest)
  = app ws <$> lex InSpace EscInit false "" rest.
Proof.
  induction ws as [| w ws IH]; intros esc rest Hne Hws; [done |].
  apply Forall_cons in Hws as [Hw Hws].
  unfold word in Hw. apply andb_true_iff in Hw as [Hnw Hw].
  destruct w as [| c w]; [done |]. simpl in Hw.
  apply andb_true_iff in Hw as [Hc Hw].
  destruct ws as [| w' ws].
  - simpl unwords. rewrite append_cons, lex_word_start by done.
    rewrite lex_plain_blank by done.
    by destruct (lex InSpace EscInit false "" rest).
  - change (unwords (String c w :: w' :: ws))
      with (String c (w +:+ String " "%char (unwords (w' :: ws)))).
    rewrite append_cons, append_assoc, append_cons.
    rewrite lex_word_start, lex_plain_blank by done.
    rewrite IH by done.
    by destruct (lex InSpace EscInit false "" rest).
Qed.

(** Words, then one single-quoted argument. *)
Lemma split_quoted_last ws P :
  ws <> [] ->
  Forall (fun w => word w = true) ws ->
  lacks "'"%char P = true ->
  split (unwords ws +:+ " '" +:+ P +:+ "'") = Some (ws ++ [P]).
Proof.
  intros Hne Hws HP. unfold split.
  change (" '" +:+ P +:+ "'")
    with (String " "%char (String "'"%char (P +:+ String "'"%char ""))).
  rewrite lex_unwords_then by done. simpl lex.
  rewrite lex_single_quoted by done. by rewrite append_empty_l.
Qed.

End Quoted.

(** X11.  Single quotes do not hide an argument: after a path-checked
    command and its flags, a single-quoted argument [P], blanks and
    backslashes included, is judged as the one path [P]. *)
Theorem quoted_argument_judged_verbatim (fs : filesystem)
    (working_directory approved_directory : Path)
    (b : string) (flags : list string) (P : string) :
  Forall (fun w => word w = true) (b :: flags) ->
  Forall is_flag flags ->
  path_checked (PurePath.name b) (flags ++ [P]) ->
  lacks "'"%char P = true ->
  ~ is_flag P ->
  check_bash_directory_boundary fs
    (unwords (b :: flags) +:+ " '" +:+ P +:+ "'")
    working_directory approved_directory
  = if PurePath.is_relative_to (resolve_token fs working_directory P)
         (Realpath.resolve fs approved_directory)
    then Allowed
    else Denied (violation (PurePath.name b) P
                   (Realpath.resolve fs approved_directory)).
Proof.
  intros Hwords Hflags Hpc HP HnotflagP.
  assert (Hsplit : Shlex.split (unwords (b :: flags) +:+ " '" +:+ P +:+ "'")
                   = Some (b :: flags ++ [P]))
    by (by apply (split_quoted_last (b :: flags) P)).
  rewrite (path_checked_verdict fs _ _ _ b _ Hsplit Hpc).
  assert (Hpass : Forall (passes fs working_directory
                            (Realpath.resolve fs approved_directory)) flags)
    by (eapply Forall_impl; [exact Hflags | by left]).
  destruct (PurePath.is_relative_to _ _) eqn:Hin.
  - apply loop_all_pass. apply Forall_app. split; [done |].
    constructor; [by right | constructor].
  - by apply loop_first_violation.
Qed.

Lemma quoted_argument_judged_verbatim_witness :
  check_bash_directory_boundary fs0 "rm -r -f '/etc/my file\'" A0 A0
  = Denied (violation "rm" "/etc/my file\" A0).
Proof.
  assert (Hrm : path_checked (PurePath.name "rm") (["-r"; "-f"] ++ ["/etc/my file\"]))
    by (left; by_evaluation).
  apply (quoted_argument_judged_verbatim fs0 A0 A0 "rm" ["-r"; "-f"]
           "/etc/my file\").
  - repeat constructor.
  - repeat constructor.
  - exact Hrm.
  - reflexivity.
  - discriminate.
Defined.

(** ** The approved root and the working directory *)

(** X12.  With the filesystem root as approved directory no command is
    denied. *)
Theorem root_approves_everything (fs : filesystem) (command : string)
    (working_directory approved_directory : Path) :
  Realpath.resolve fs approved_directory = [] ->
  check_bash_directory_boundary fs command working_directory
    approved_directory = Allowed.
Proof.
  intros Hroot.
  destruct (Shlex.split command) as [[| token0 arguments] |] eqn:Hsplit.
  - unfold check_bash_directory_boundary. by rewrite Hsplit.
  - rewrite (check_by_class fs _ _ _ _ _ Hsplit).
    destruct (checks_paths _ _); [| done].
    apply loop_all_pass, Forall_forall. intros t _. right.
    unfold inside, PurePath.is_relative_to. rewrite Hroot.
    apply bool_decide_eq_true, prefix_nil.
  - unfold check_bash_directory_boundary. by rewrite Hsplit.
Qed.

Lemma root_approves_everything_witness :
  check_bash_directory_boundary fs0 "rm -rf /etc /home ../.." A0 ["home"; ".."]
  = Allowed.
Proof.
  apply (root_approves_everything fs0 "rm -rf /etc /home ../.." A0
           ["home"; ".."]).
  reflexivity.
Defined.

(** X13.  The arguments "." and "" (an empty quoted word) stand for the
    working directory itself: a path-checked command with such an argument
    alone is allowed exactly when the working directory resolves to the
    approved directory or below it. *)
Theorem dot_is_working_directory (fs : filesystem) (command : string)
    (working_directory approved_directory : Path) (token0 token : string) :
  token = "." \/ token = "" ->
  Shlex.split command = Some [token0; token] ->
  path_checked (PurePath.name token0) [token] ->
  check_bash_directory_boundary fs command working_directory
    approved_directory
  = if PurePath.is_relative_to (Realpath.resolve fs working_directory)
         (Realpath.resolve fs approved_directory)
    then Allowed
    else Denied (violation (PurePath.name token0) token
                   (Realpath.resolve fs approved_directory)).
Proof.
  intros Htoken Hsplit Hpc.
  rewrite (path_checked_verdict fs _ _ command token0 [token] Hsplit Hpc).
  assert (Hres : resolve_token fs working_directory token
                 = Realpath.resolve fs working_directory).
  { destruct Htoken as [-> | ->]; unfold resolve_token; simpl;
      unfold PurePath.joinpath; simpl; by rewrite app_nil_r. }
  assert (Hflag : ~ is_flag token) by (by destruct Htoken as [-> | ->]).
  destruct (PurePath.is_relative_to _ _) eqn:Hin.
  - apply loop_all_pass. constructor; [| constructor].
    right. unfold inside. by rewrite Hres.
  - apply loop_violation; [done |]. unfold outside. by rewrite Hres.
Qed.

Lemma dot_is_working_directory_witness :
  check_bash_directory_boundary fs0 "rm -rf ." A0 A0 = Allowed
  /\ check_bash_directory_boundary fs0 "rmdir ''" ["home"] A0
     = Denied (violation "rmdir" "" A0).
Proof.
  assert (Hfind : path_checked (PurePath.name "rmdir") [""])
    by (left; by_evaluation).
  split; [reflexivity |].
  apply (dot_is_working_directory fs0 "rmdir ''" ["home"] A0 "rmdir" "");
    [by right | reflexivity | exact Hfind].
Defined.

(** ** What exists and what does not *)

Section Existence.

Variables fs1 fs2 : filesystem.
Hypothesis Hlinks : same_links fs1 fs2.

Lemma walk_same_links rest : forall path,
  Realpath.walk fs1 path rest = Realpath.walk fs2 path rest.
Proof.
  induction rest as [| x rest IH]; intros path; simpl; [done |].
  destruct (bool_decide (x = "") || bool_decide (x = ".")); [apply IH |].
  destruct (bool_decide (x = "..")); [apply IH |].
  pose proof (Hlinks (path ++ [x])) as Hx.
  destruct (fs1 (path ++ [x])), (fs2 (path ++ [x]));
    simpl in Hx; try discriminate; try apply IH.
  injection Hx as ->. apply IH.
Qed.

Lemma resolve_token_same_links working_directory token :
  resolve_token fs1 working_directory token
  = resolve_token fs2 working_directory token.
Proof. unfold resolve_token, Realpath.resolve. by rewrite !walk_same_links. Qed.

Lemma loop_same_links base working_directory resolved_approved tokens :
  check_arguments fs1 base working_directory resolved_approved tokens
  = check_arguments fs2 base working_directory resolved_approved tokens.
Proof.
  induction tokens as [| token tokens IH]; [reflexivity |].
  simpl. by rewrite resolve_token_same_links, IH.
Qed.

End Existence.

(** X14.  The verdict depends on the filesystem through its symbolic links
    only: on two snapshots with the same links, whichever files and
    directories exist in each, every command gets the same verdict. *)
Theorem existence_is_irrelevant (fs1 fs2 : filesystem) (command : string)
    (working_directory approved_directory : Path) :
  same_links fs1 fs2 ->
  check_bash_directory_boundary fs1 command working_directory
    approved_directory
  = check_bash_directory_boundary fs2 command working_directory
      approved_directory.
Proof.
  intros Hlinks. unfold check_bash_directory_boundary.
  destruct (Shlex.split command) as [[| token0 arguments] |]; try done.
  cbv zeta. unfold Realpath.resolve.
  rewrite (walk_same_links fs1 fs2 Hlinks).
  by rewrite (loop_same_links fs1 fs2 Hlinks).
Qed.

Lemma existence_is_irrelevant_witness :
  fs0 ["home"; "a"] = Plain /\ fs_bare ["home"; "a"] = Missing
  /\ check_bash_directory_boundary fs0 "touch out/x notes" A0 A0
     = check_bash_directory_boundary fs_bare "touch out/x notes" A0 A0.
Proof.
  split; [reflexivity |]. split; [reflexivity |].
  apply (existence_is_irrelevant fs0 fs_bare "touch out/x notes" A0 A0).
  intros p. unfold fs_bare. by destruct (fs0 p).
Defined.

(** * Voice notes *)

(** ** [str.strip()] *)

Section Strip.

Import Voice.

Lemma lstrip_head s c t : lstrip s = c :: t -> isspace c = false.
Proof.
  induction s as [| x s IH]; simpl; [done |].
  destruct (isspace x) eqn:Hx; [done |]. by intros [= <- _].
Qed.

Lemma lstrip_suffix s :
  exists blank, s = blank ++ lstrip s /\ forallb isspace blank = true.
Proof.
  induction s as [| x s (blank & Hs & Hblank)]; simpl.
  - by exists [].
  - destruct (isspace x) eqn:Hx.
    + exists (x :: blank). simpl. rewrite Hx, Hblank. by rewrite <- Hs.
    + by exists [].
Qed.

Lemma lstrip_nil s : lstrip s = [] <-> forallb isspace s = true.
Proof.
  induction s as [| x s IH]; simpl; [done |].
  destruct (isspace x); simpl; [done |]. split; discriminate.
Qed.

Lemma forallb_reverse (f : N -> bool) l :
  forallb f (reverse l) = forallb f l.
Proof.
  induction l as [| x l IH]; [done |].
  rewrite reverse_cons, forallb_app, IH. simpl. rewrite andb_true_r.
  apply andb_comm.
Qed.

Lemma rstrip_nil s : rstrip s = [] <-> forallb isspace s = true.
Proof.
  unfold rstrip. rewrite <- (forallb_reverse isspace s), <- lstrip_nil.
  split; [| by intros ->].
  intros H. apply (f_equal reverse) in H. by rewrite reverse_involutive in H.
Qed.

Lemma rstrip_prefix s :
  exists blank, s = rstrip s ++ blank /\ forallb isspace blank = true.
Proof.
  destruct (lstrip_suffix (reverse s)) as (blank & Hs & Hblank).
  exists (reverse blank). split; [| by rewrite forallb_reverse].
  unfold rstrip. rewrite <- reverse_app, <- Hs. by rewrite reverse_involutive.
Qed.

Lemma rstrip_last s c : last (rstrip s) = Some c -> isspace c = false.
Proof.
  unfold rstrip. rewrite last_reverse.
  destruct (lstrip (reverse s)) as [| x t] eqn:Hl; [done |].
  intros [= <-]. by eapply lstrip_head.
Qed.

(** Nothing is left exactly when there was only white space. *)
Lemma strip_nil s : strip s = [] <-> forallb isspace s = true.
Proof.
  unfold strip. rewrite rstrip_nil.
  destruct (lstrip s) as [| c t] eqn:Hl.
  - apply lstrip_nil in Hl. by rewrite Hl.
  - simpl. rewrite (lstrip_head _ _ _ Hl). simpl.
    rewrite <- lstrip_nil, Hl. split; discriminate.
Qed.

(** What is left neither begins nor ends with white space. *)
Lemma strip_ends s c :
  head (strip s) = Some c \/ last (strip s) = Some c -> isspace c = false.
Proof.
  unfold strip. intros [Hhead | Hlast]; [| by eapply rstrip_last].
  destruct (rstrip_prefix (lstrip s)) as (blank & Hs & _).
  destruct (rstrip (lstrip s)) as [| x t]; [done |].
  injection Hhead as ->. simpl in Hs. by eapply lstrip_head.
Qed.

End Strip.

(** ** [transcribe_voice] *)

Section Transcribe.

Import Voice.

Variables float exn : Type.
Variable svc : service exn.
Variable self : VoiceHandler.
Variable voice_file_bytes : bytes.
Variable duration : Z.

Local Abbreviation the_request :=
  (AskedTranscription (float := float) (stt_model self) (lit "voice.ogg")
     voice_file_bytes (lit "text")).

Local Abbreviation the_answer :=
  (transcriptions_create svc (stt_model self) (lit "voice.ogg")
     voice_file_bytes (lit "text")).

(** The run, case by case. *)
Lemma transcribe_run :
  run svc (transcribe_voice (float := float) self voice_file_bytes duration)
  = if (duration >? max_duration_seconds self)%Z then
      (ValueError (too_long_message duration (max_duration_seconds self)), [])
    else
      match the_answer with
      | Raised e =>
          (Failed e,
           [Logged (lit "Transcribing voice note")
              [(lit "duration", VInt duration);
               (lit "file_size", VInt (len voice_file_bytes));
               (lit "model", VStr (stt_model self))];
            the_request])
      | Returned t =>
          match strip (transcript_text t) with
          | [] =>
              (ValueError no_speech_message,
               [Logged (lit "Transcribing voice note")
                  [(lit "duration", VInt duration);
                   (lit "file_size", VInt (len voice_file_bytes));
                   (lit "model", VStr (stt_model self))];
                the_request])
          | text =>
              (Finished
                 {| transcription := text;
                    prompt := prompt_marker ++ text;
                    duration_seconds := duration;
                    file_size := len voice_file_bytes;
                    metadata := {[ lit "stt_model" := VStr (stt_model self) ]}
                 |},
               [Logged (lit "Transcribing voice note")
                  [(lit "duration", VInt duration);
                   (lit "file_size", VInt (len voice_file_bytes));
                   (lit "model", VStr (stt_model self))];
                the_request;
                Logged (lit "Voice note transcribed")
                  [(lit "duration", VInt duration);
                   (lit "transcription_length", VInt (len text))]])
          end
      end.
Proof.
  unfold transcribe_voice.
  destruct (duration >? max_duration_seconds self)%Z; [reflexivity |].
  cbn [run]. destruct the_answer as [[s | s] | e]; [| | reflexivity].
  - cbn [transcript_text]. by destruct (strip s).
  - cbn [transcript_text]. by destruct (strip s).
Qed.

End Transcribe.

(** X15.  Whatever the service answers, a voice note that is transcribed
    comes back with a transcription that is not empty and neither begins
    nor ends with white space, namely the stripped text of the answer; the
    prompt is the marker followed by that transcription; the duration is
    the one given and within the maximum; the size is that of the note. *)
Theorem transcribe_result_invariant (float exn : Type)
    (svc : Voice.service exn) (self : Voice.VoiceHandler)
    (voice_file_bytes : Voice.bytes) (duration : Z)
    (pv : Voice.ProcessedVoice float) (trace : list (Voice.effect float)) :
  Voice.run svc (Voice.transcribe_voice self voice_file_bytes duration)
  = (Voice.Finished pv, trace) ->
  (duration <= Voice.max_duration_seconds self)%Z
  /\ Voice.transcription pv <> []
  /\ (forall c,
        head (Voice.transcription pv) = Some c
        \/ last (Voice.transcription pv) = Some c ->
        Voice.isspace c = false)
  /\ (exists t,
        Voice.transcriptions_create svc (Voice.stt_model self)
          (Voice.lit "voice.ogg") voice_file_bytes (Voice.lit "text")
        = Voice.Returned t
        /\ Voice.transcription pv = Voice.strip (Voice.transcript_text t))
  /\ Voice.prompt pv
     = Voice.lit "[Voice message transcription]: " ++ Voice.transcription pv
  /\ Voice.duration_seconds pv = duration
  /\ Voice.file_size pv = Voice.len voice_file_bytes
  /\ Voice.metadata pv
     = {[ Voice.lit "stt_model" := Voice.VStr (Voice.stt_model self) ]}.
Proof.
  rewrite transcribe_run.
  destruct (duration >? _)%Z eqn:Hlong; [discriminate |].
  destruct (Voice.transcriptions_create _ _ _ _ _) as [t | e];
    [| discriminate].
  destruct (Voice.strip (Voice.transcript_text t)) as [| c text] eqn:Htext;
    [discriminate |].
  intros [= <- _]. simpl. split_and!; try done.
  - lia.
  - intros x Hx. apply (strip_ends (Voice.transcript_text t)).
    by rewrite Htext.
  - by exists t.
Qed.

Lemma transcribe_result_invariant_witness :
  exists pv trace,
    Voice.run service0
      (Voice.transcribe_voice (float := unit) handler0 [Byte.x4f] 120)
    = (Voice.Finished pv, trace)
    /\ Voice.transcription pv = Voice.lit "hello world"
    /\ Voice.prompt pv
       = Voice.lit "[Voice message transcription]: hello world"
    /\ Voice.transcription pv <> [].
Proof.
  destruct (Voice.run service0
              (Voice.transcribe_voice (float := unit) handler0 [Byte.x4f] 120))
    as [o trace] eqn:Hrun.
  pose proof Hrun as Hvalue. vm_compute in Hvalue.
  injection Hvalue as <- <-.
  eexists _, _. split; [reflexivity |].
  split; [reflexivity |]. split; [reflexivity |].
  exact (proj1 (proj2 (transcribe_result_invariant unit unit service0
                         handler0 [Byte.x4f] 120 _ _ Hrun))).
Defined.

(** X16.  For a note within the maximum duration that the service
    answers, the call fails with "Could not transcribe any speech from the
    voice note." exactly when the answered text is empty or consists of
    white space only. *)
Theorem transcribe_blank_rejected (float exn : Type)
    (svc : Voice.service exn) (self : Voice.VoiceHandler)
    (voice_file_bytes : Voice.bytes) (duration : Z) (t : Voice.transcript) :
  (duration <= Voice.max_duration_seconds self)%Z ->
  Voice.transcriptions_create svc (Voice.stt_model self)
    (Voice.lit "voice.ogg") voice_file_bytes (Voice.lit "text")
  = Voice.Returned t ->
  forallb Voice.isspace (Voice.transcript_text t) = true
  <-> fst (Voice.run svc
             (Voice.transcribe_voice (float := float) self voice_file_bytes
                duration))
      = Voice.ValueError
          (Voice.lit "Could not transcribe any speech from the voice note.").
Proof.
  intros Hshort Hanswer. rewrite transcribe_run, Hanswer.
  destruct (duration >? _)%Z eqn:Hlong; [lia |].
  rewrite <- strip_nil.
  destruct (Voice.strip (Voice.transcript_text t)); simpl; split; done.
Qed.

Lemma transcribe_blank_rejected_witness :
  fst (Voice.run service_blank
         (Voice.transcribe_voice (float := unit) handler0 [] 3))
  = Voice.ValueError
      (Voice.lit "Could not transcribe any speech from the voice note.").
Proof.
  apply (transcribe_blank_rejected unit unit service_blank handler0 [] 3
           (Voice.AsStr [9%N; 160%N])).
  - vm_compute. discriminate.
  - reflexivity.
  - reflexivity.
Defined.

(** X17.  A note longer than the maximum is refused with "Voice note too
    long (<duration>s). Maximum is <maximum>s." before anything is logged
    or sent; any other note is sent to the service exactly once, as the
    file "voice.ogg" for the configured model with the response format
    "text", however the call ends. *)
Theorem transcribe_asks_once (float exn : Type)
    (svc : Voice.service exn) (self : Voice.VoiceHandler)
    (voice_file_bytes : Voice.bytes) (duration : Z) :
  ((duration > Voice.max_duration_seconds self)%Z ->
   Voice.run svc
     (Voice.transcribe_voice (float := float) self voice_file_bytes duration)
   = (Voice.ValueError
        (Voice.lit "Voice note too long (" ++ Voice.str_int duration
         ++ Voice.lit "s). Maximum is "
         ++ Voice.str_int (Voice.max_duration_seconds self)
         ++ Voice.lit "s."), []))
  /\ ((duration <= Voice.max_duration_seconds self)%Z ->
      Voice.requests
        (snd (Voice.run svc
                (Voice.transcribe_voice (float := float) self
                   voice_file_bytes duration)))
      = [Voice.AskedTranscription (Voice.stt_model self)
           (Voice.lit "voice.ogg") voice_file_bytes (Voice.lit "text")]).
Proof.
  rewrite transcribe_run. split; intros Hduration.
  - destruct (duration >? _)%Z eqn:Hlong; [| lia].
    reflexivity.
  - destruct (duration >? _)%Z eqn:Hlong; [lia |].
    destruct (Voice.transcriptions_create _ _ _ _ _) as [t | e];
      [| reflexivity].
    by destruct (Voice.strip (Voice.transcript_text t)).
Qed.

Example too_long_sample :
  Voice.too_long_message 130 120
  = Voice.lit "Voice note too long (130s). Maximum is 120s.".
Proof. vm_compute. reflexivity. Qed.

Example strip_sample :
  Voice.strip ([10%N; 8195%N] ++ Voice.lit "a  b" ++ [12288%N; 32%N])
  = Voice.lit "a  b".
Proof. vm_compute. reflexivity. Qed.

(** ** [generate_voice_response] *)

Section Generate.

Import Voice.

Variables float exn : Type.
Variable int_truediv : Z -> Z -> float.
Variable int_div_float : Z -> float -> float.
Variable round_to : float -> Z -> float.
Variable svc : service exn.
Variable self : VoiceHandler.
Variable text : Voice.text.

Local Abbreviation generate :=
  (generate_voice_response int_truediv int_div_float round_to self text).

Local Abbreviation the_speech :=
  (speech_create svc (tts_model self) (tts_voice self) text (lit "opus")).

(** The outcome and the requests of a run, case by case. *)
Lemma generate_run :
  (fst (run svc generate), requests (snd (run svc generate)))
  = if negb (enable_response self) then (Finished None, [])
    else if (len text >? response_max_chars self)%Z then (Finished None, [])
    else
      (match the_speech with
       | Raised e => Failed e
       | Returned content =>
           Finished
             (Some {| audio_data := content;
                      format := lit "opus";
                      duration_estimate_seconds :=
                        int_div_float (len text) (int_truediv (150 * 5) 60)
                   |})
       end,
       [AskedSpeech (tts_model self) (tts_voice self) text (lit "opus")]).
Proof.
  unfold generate_voice_response.
  destruct (negb (enable_response self)); [reflexivity |].
  destruct (len text >? response_max_chars self)%Z; [reflexivity |].
  cbn [run]. by destruct the_speech.
Qed.

End Generate.

(** X18.  A reply is sent to the speech service only when voice responses
    are enabled and the reply has at most the configured number of
    characters, and then exactly once, with the configured model and
    voice and the format "opus"; otherwise nothing is sent and the result
    is [None]. *)
Theorem generate_asks_when_enabled_and_short (float exn : Type)
    (int_truediv : Z -> Z -> float) (int_div_float : Z -> float -> float)
    (round_to : float -> Z -> float)
    (svc : Voice.service exn) (self : Voice.VoiceHandler)
    (text : Voice.text) :
  let result :=
    Voice.run svc
      (Voice.generate_voice_response int_truediv int_div_float round_to
         self text) in
  (Voice.enable_response self = true
   /\ (Voice.len text <= Voice.response_max_chars self)%Z ->
   Voice.requests (snd result)
   = [Voice.AskedSpeech (Voice.tts_model self) (Voice.tts_voice self) text
        (Voice.lit "opus")])
  /\ (Voice.enable_response self = false
      \/ (Voice.len text > Voice.response_max_chars self)%Z ->
      Voice.requests (snd result) = [] /\ fst result = Voice.Finished None).
Proof.
  intros result.
  pose proof (generate_run float exn int_truediv int_div_float round_to
                svc self text) as Hrun.
  fold result in Hrun. split.
  - intros [Hon Hshort]. rewrite Hon in Hrun. simpl in Hrun.
    destruct (Voice.len text >? _)%Z eqn:Hlong; [lia |].
    by injection Hrun as _ ->.
  - intros [Hoff | Hlong].
    + rewrite Hoff in Hrun. simpl in Hrun. by injection Hrun as -> ->.
    + destruct (negb _); [by injection Hrun as -> -> |].
      destruct (Voice.len text >? _)%Z eqn:Hgt; [| lia].
      by injection Hrun as -> ->.
Qed.

(** X19.  A voice response that is returned carries the bytes the service
    answered and the format "opus", and is returned only with voice
    responses enabled and for a reply of at most the configured number of
    characters. *)
Theorem generate_result_shape (float exn : Type)
    (int_truediv : Z -> Z -> float) (int_div_float : Z -> float -> float)
    (round_to : float -> Z -> float)
    (svc : Voice.service exn) (self : Voice.VoiceHandler)
    (text : Voice.text) (response : Voice.VoiceResponse float) :
  fst (Voice.run svc
         (Voice.generate_voice_response int_truediv int_div_float round_to
            self text))
  = Voice.Finished (Some response) ->
  Voice.enable_response self = true
  /\ (Voice.len text <= Voice.response_max_chars self)%Z
  /\ Voice.speech_create svc (Voice.tts_model self) (Voice.tts_voice self)
       text (Voice.lit "opus")
     = Voice.Returned (Voice.audio_data response)
  /\ Voice.format response = Voice.lit "opus".
Proof.
  pose proof (generate_run float exn int_truediv int_div_float round_to
                svc self text) as Hrun.
  intros Hresult. rewrite Hresult in Hrun.
  destruct (Voice.enable_response self); [| discriminate].
  simpl in Hrun.
  destruct (Voice.len text >? _)%Z eqn:Hlong; [discriminate |].
  destruct (Voice.speech_create _ _ _ _ _) as [content | e];
    [| discriminate].
  injection Hrun as -> _. simpl. split_and!; [done | lia | done | done].
Qed.

Lemma generate_result_shape_witness :
  Voice.len (Voice.lit "twelve chars") = 12%Z
  /\ Voice.format
       {| Voice.audio_data := [Byte.x4f; Byte.x67; Byte.x67; Byte.x53];
          Voice.format := Voice.lit "opus";
          Voice.duration_estimate_seconds := tt |}
     = Voice.lit "opus".
Proof.
  split; [reflexivity |].
  apply (generate_result_shape unit unit no_float2 no_float_div no_round
           service0 handler0 (Voice.lit "twelve chars")).
  reflexivity.
Defined.

(** X20.  A handler is made only from settings whose API key is present
    and not empty, and it enforces the configured maximum: its
    [transcribe_voice] fails with the "Voice note too long" message
    exactly for the durations above [voice_max_duration_seconds]. *)
Theorem configured_maximum_enforced (float exn : Type)
    (svc : Voice.service exn) (cfg : Voice.Settings)
    (self : Voice.VoiceHandler) (voice_file_bytes : Voice.bytes)
    (duration : Z) :
  Voice.init (float := float) (exn := exn) cfg = Voice.Return self ->
  (exists key, Voice.openai_api_key_str cfg = Some key /\ key <> [])
  /\ ((duration > Voice.voice_max_duration_seconds cfg)%Z
      <-> fst (Voice.run svc
                 (Voice.transcribe_voice (float := float) self
                    voice_file_bytes duration))
          = Voice.ValueError
              (Voice.too_long_message duration
                 (Voice.voice_max_duration_seconds cfg))).
Proof.
  unfold Voice.init.
  destruct (Voice.openai_api_key_str cfg) as [[| c key] |] eqn:Hkey;
    [discriminate | | discriminate].
  intros [= <-]. split; [by eexists |].
  rewrite transcribe_run. simpl.
  destruct (duration >? _)%Z eqn:Hlong.
  - split; [done | lia].
  - split; [lia |].
    destruct (Voice.transcriptions_create _ _ _ _ _) as [t | e];
      [| discriminate].
    destruct (Voice.strip (Voice.transcript_text t)); discriminate.
Qed.

Lemma configured_maximum_enforced_witness :
  fst (Voice.run service0
         (Voice.transcribe_voice (float := unit) handler0 [] 121))
  = Voice.ValueError
      (Voice.lit "Voice note too long (121s). Maximum is 120s.").
Proof.
  apply (proj2 (configured_maximum_enforced unit unit service0 cfg0 handler0
                  [] 121 eq_refl)).
  reflexivity.
Defined.

(** * The check with the exceptions of [resolve()] *)

Example raising_samples :
  Raising.check_bash_directory_boundary snap0 ("touch a" +:+ nul +:+ "b") A0 A0
  = Raising.Raises Raising.ValueError_embedded_null_byte
  /\ Raising.check_bash_directory_boundary snap0 "touch loop/x" A0 A0
     = Raising.Raises Raising.RuntimeError_symlink_loop
  /\ Raising.check_bash_directory_boundary snap0 "touch loop/.." A0 A0
     = Raising.Returns Allowed
  /\ Raising.check_bash_directory_boundary snap0 "cat loop/x" A0 A0
     = Raising.Returns Allowed
  /\ Raising.check_bash_directory_boundary snap0 "touch out/passwd" A0 A0
     = Raising.Returns (Denied (violation "touch" "out/passwd" A0)).
Proof. repeat split; vm_compute; reflexivity. Qed.

(** Stepping back out of the cyclic link leaves the rest of the path
    unresolved: the link /home/a/out, which leads to /etc, is not
    followed. *)
Example cycle_leaves_rest_unresolved :
  Raising.check_bash_directory_boundary snap0 "rm loop/../out/passwd" A0 A0
  = Raising.Returns Allowed.
Proof. vm_compute. reflexivity. Qed.

(** With an argument that cannot be resolved the order decides. *)
Example order_decides_when_unresolvable :
  Raising.check_bash_directory_boundary snap0
    ("rm /etc/x a" +:+ nul +:+ "b") A0 A0
  = Raising.Returns (Denied (violation "rm" "/etc/x" A0))
  /\ Raising.check_bash_directory_boundary snap0
       ("rm a" +:+ nul +:+ "b /etc/x") A0 A0
     = Raising.Raises Raising.ValueError_embedded_null_byte.
Proof. split; vm_compute; reflexivity. Qed.

(** ** NUL bytes *)

Lemma has_nul_app a b : has_nul (a +:+ b) = has_nul a || has_nul b.
Proof.
  induction a as [| c a IH]; [reflexivity |].
  rewrite append_cons. simpl. rewrite IH. apply orb_assoc.
Qed.

Section NulFree.

Import Shlex PurePath.

Lemma has_nul_snoc token c :
  has_nul (snoc token c) = has_nul token || bool_decide (c = "000"%char).
Proof. unfold snoc. rewrite has_nul_app. simpl. by rewrite orb_false_r. Qed.

(** The tokens hold no character that the command does not hold. *)
Lemma lex_nul_free input : forall st esc quoted token tokens,
  has_nul input = false ->
  has_nul token = false ->
  lex st esc quoted token input = Some tokens ->
  Forall nul_free tokens.
Proof.
  assert (Hemit : forall quoted token tokens,
    has_nul token = false ->
    Some (emit quoted token []) = Some tokens -> Forall nul_free tokens).
  { intros quoted token tokens Htoken [= <-]. unfold emit.
    destruct (quoted || negb (bool_decide (token = "")));
      repeat constructor; done. }
  assert (Hcons : forall token (r : option (list string)) tokens,
    has_nul token = false ->
    (forall l, r = Some l -> Forall nul_free l) ->
    cons token <$> r = Some tokens -> Forall nul_free tokens).
  { intros token [l |] tokens Htoken Hr; simpl; [| discriminate].
    intros [= <-]. constructor; [done | by apply Hr]. }
  induction input as [| c input IH]; intros st esc quoted token tokens Hin Htok.
  - destruct st; simpl; try discriminate; by apply Hemit.
  - simpl in Hin. apply orb_false_iff in Hin as [Hc Hin].
    assert (Hsnoc : forall t, has_nul t = false -> has_nul (snoc t c) = false)
      by (intros t Ht; by rewrite has_nul_snoc, Ht, Hc).
    assert (Hone : has_nul (String c "") = false)
      by (simpl; by rewrite Hc).
    destruct st; simpl.
    + destruct (whitespace c).
      * destruct (quoted || negb (bool_decide (token = ""))).
        -- apply Hcons; [done |]. intros l. by apply IH.
        -- by apply IH.
      * destruct (escape c); [by apply IH |].
        destruct (quotes c); by apply IH.
    + destruct (whitespace c).
      * destruct (quoted || negb (bool_decide (token = ""))).
        -- apply Hcons; [done |]. intros l. by apply IH.
        -- by apply IH.
      * destruct (quotes c); [by apply IH |].
        destruct (escape c); [by apply IH |]. apply IH; auto.
    + destruct (bool_decide (c = q)); [by apply IH |].
      destruct (escape c && escapedquotes q); [by apply IH |].
      apply IH; auto.
    + apply IH; [done |]. apply Hsnoc.
      destruct esc; try done.
      destruct (negb (escape c) && negb (bool_decide (c = q))); [| done].
      by rewrite has_nul_snoc, Htok.
Qed.

Lemma split_nul_free command tokens :
  has_nul command = false ->
  split command = Some tokens -> Forall nul_free tokens.
Proof. intros Hc. by apply lex_nul_free. Qed.

Lemma split_sep_nul_free s : forall cur,
  has_nul cur = false -> has_nul s = false ->
  Forall nul_free (split_sep cur s).
Proof.
  induction s as [| c s IH]; intros cur Hcur Hs; simpl.
  - by repeat constructor.
  - simpl in Hs. apply orb_false_iff in Hs as [Hc Hs].
    destruct (bool_decide (c = "/"%char)).
    + constructor; [done | by apply IH].
    + apply IH; [| done]. rewrite has_nul_app. simpl.
      by rewrite Hcur, Hc.
Qed.

Lemma parse_parts_nul_free token :
  nul_free token -> Forall nul_free (parse_parts token).
Proof.
  intros Htoken. unfold parse_parts. rewrite List.Forall_forall.
  intros x [Hx _]%List.filter_In. revert x Hx. rewrite <- List.Forall_forall.
  by apply split_sep_nul_free.
Qed.

End NulFree.

(** ** When nothing is raised *)

Section Agreement.

Variable s : Raising.snapshot.
Hypothesis Hacyclic : Raising.acyclic s.

(** Without cycles and NUL bytes the resolver is the walk over the links,
    whatever exists and whatever is missing. *)
Lemma walk_agrees rest : forall path,
  Forall nul_free rest ->
  Raising.walk s path rest
  = Raising.Returns (Realpath.walk (Raising.links s) path rest).
Proof.
  induction rest as [| name rest IH]; intros path Hrest; [reflexivity |].
  apply Forall_cons in Hrest as [Hname Hrest]. simpl.
  destruct (bool_decide (name = "") || bool_decide (name = "."));
    [by apply IH |].
  destruct (bool_decide (name = "..")); [by apply IH |].
  rewrite Hname, Hacyclic.
  destruct (Raising.links s (path ++ [name])); by apply IH.
Qed.

Lemma resolve_agrees p :
  Forall nul_free p ->
  Raising.resolve s p = Raising.Returns (Realpath.resolve (Raising.links s) p).
Proof. apply walk_agrees. Qed.

Lemma resolve_token_agrees working_directory token :
  Forall nul_free working_directory ->
  nul_free token ->
  Raising.resolve_token s working_directory token
  = Raising.Returns (resolve_token (Raising.links s) working_directory token).
Proof.
  intros Hwd Htoken. unfold Raising.resolve_token, resolve_token.
  destruct (startswith token "/"); apply resolve_agrees.
  - by apply parse_parts_nul_free.
  - apply Forall_app. split; [done | by apply parse_parts_nul_free].
Qed.

Lemma loop_agrees base working_directory resolved_approved tokens :
  Forall nul_free working_directory ->
  Forall nul_free tokens ->
  Raising.check_arguments s base working_directory resolved_approved tokens
  = Raising.Returns (check_arguments (Raising.links s) base working_directory
               resolved_approved tokens).
Proof.
  intros Hwd. induction 1 as [| token tokens Htoken _ IH]; [reflexivity |].
  simpl. destruct (startswith token "-"); [done |].
  rewrite resolve_token_agrees by done.
  by destruct (PurePath.is_relative_to _ _).
Qed.

Lemma check_agrees command working_directory approved_directory :
  has_nul command = false ->
  Forall nul_free working_directory ->
  Forall nul_free approved_directory ->
  Raising.check_bash_directory_boundary s command working_directory
    approved_directory
  = Raising.Returns (check_bash_directory_boundary (Raising.links s) command
               working_directory approved_directory).
Proof.
  intros Hcommand Hwd Happroved.
  unfold Raising.check_bash_directory_boundary, check_bash_directory_boundary.
  destruct (Shlex.split command) as [[| token0 arguments] |] eqn:Hsplit;
    try reflexivity.
  apply split_nul_free in Hsplit; [| done].
  apply Forall_cons in Hsplit as [_ Harguments]. cbv zeta.
  rewrite resolve_agrees, loop_agrees by done.
  destruct (bool_decide (_ ∈ _READ_ONLY_COMMANDS)); [done |].
  destruct (bool_decide (_ = "find")).
  - by destruct (negb _).
  - by destruct (negb _).
Qed.

End Agreement.

(** ** The loop with exceptions *)

Section RaisingLoop.

Variable s : Raising.snapshot.
Variables (base_command : string) (working_directory resolved_approved : Path).

Local Abbreviation loop :=
  (Raising.check_arguments s base_command working_directory resolved_approved).

Lemma raising_loop_passes token tokens :
  Raising.passes s working_directory resolved_approved token ->
  loop (token :: tokens) = loop tokens.
Proof.
  intros [Hflag | (resolved & Hres & Hin)]; simpl.
  - unfold is_flag in Hflag. by rewrite Hflag.
  - rewrite Hres. unfold inside in Hin. rewrite Hin.
    by destruct (startswith token "-").
Qed.

(** An exception at the first candidate that does not pass leaves the
    loop, and the function. *)
Lemma raising_loop_raises before token after e :
  Forall (Raising.passes s working_directory resolved_approved) before ->
  ~ is_flag token ->
  Raising.resolve_token s working_directory token = Raising.Raises e ->
  loop (before ++ token :: after) = Raising.Raises e.
Proof.
  intros Hbefore Hflag Hraise.
  induction Hbefore as [| t before Hpass _ IH]; simpl app.
  - simpl. unfold is_flag in Hflag.
    destruct (startswith token "-"); [done |]. by rewrite Hraise.
  - by rewrite raising_loop_passes.
Qed.

Lemma raising_loop_denied_inv tokens reason :
  loop tokens = Raising.Returns (Denied reason) ->
  exists token resolved,
    token ∈ tokens /\ ~ is_flag token
    /\ Raising.resolve_token s working_directory token = Raising.Returns resolved
    /\ outside resolved resolved_approved
    /\ reason = violation base_command token resolved_approved.
Proof.
  unfold is_flag, outside, Denied.
  induction tokens as [| token tokens IH]; simpl; [done |].
  destruct (startswith token "-") eqn:Hflag.
  - intros H. destruct (IH H) as (t & r & Hin & Ht). exists t, r.
    split; [by apply list_elem_of_further | done].
  - destruct (Raising.resolve_token s working_directory token) as [resolved | e]
      eqn:Hres; [| discriminate].
    destruct (PurePath.is_relative_to _ _) eqn:Hrel.
    + intros H. destruct (IH H) as (t & r & Hin & Ht). exists t, r.
      split; [by apply list_elem_of_further | done].
    + intros [= <-]. exists token, resolved.
      split_and!; [apply list_elem_of_here | congruence | done | done | done].
Qed.

(** When every argument can be resolved the loop returns, and whether it
    allows is a conjunction over the arguments. *)
Lemma raising_loop_resolved tokens :
  Forall (Raising.resolves s working_directory) tokens ->
  exists verdict,
    loop tokens = Raising.Returns verdict
    /\ fst verdict
       = forallb (fun t =>
            startswith t "-"
            || match Raising.resolve_token s working_directory t with
               | Raising.Returns resolved =>
                   PurePath.is_relative_to resolved resolved_approved
               | Raising.Raises _ => false
               end) tokens.
Proof.
  induction 1 as [| token tokens Htoken _ (verdict & Hloop & Hfst)].
  - by exists (true, None).
  - simpl. destruct (startswith token "-") eqn:Hflag; [by exists verdict |].
    destruct Htoken as [Hf | (resolved & Hres)];
      [unfold is_flag in Hf; congruence |].
    rewrite Hres. destruct (PurePath.is_relative_to _ _).
    + by exists verdict.
    + by eexists.
Qed.

End RaisingLoop.

Section RaisingClass.

Lemma raising_check_by_class s command working_directory approved_directory
    token0 arguments :
  Shlex.split command = Some (token0 :: arguments) ->
  Raising.check_bash_directory_boundary s command working_directory
    approved_directory
  = if checks_paths (PurePath.name token0) arguments
    then match Raising.resolve s approved_directory with
         | Raising.Raises e => Raising.Raises e
         | Raising.Returns resolved_approved =>
             Raising.check_arguments s (PurePath.name token0) working_directory
               resolved_approved arguments
         end
    else Raising.Returns Allowed.
Proof.
  intros Hsplit. unfold Raising.check_bash_directory_boundary, checks_paths.
  rewrite Hsplit. cbv zeta.
  destruct (bool_decide (_ ∈ _READ_ONLY_COMMANDS)); [reflexivity |].
  destruct (bool_decide (_ = "find")); simpl.
  - by destruct (existsb _ arguments).
  - by destruct (bool_decide (_ ∈ _FS_MODIFYING_COMMANDS)).
Qed.

End RaisingClass.

(** * Traversal and resolution errors *)

(** C3, as stated, fails when the approved directory is itself a symbolic
    link: its parent by resolution is not its parent by spelling, and here
    [rm ../outside] is denied while [rm /p/outside] is allowed.  Nor is
    the common verdict always a denial: from /home/outside the two
    commands name the approved directory itself and are allowed. *)
Lemma traversal_differs_through_link :
  (PurePath.str (Realpath.parent A_link) +:+ "/outside" = "/p/outside"
   /\ check_bash_directory_boundary fs_link "rm ../outside" A_link A_link
      = Denied (violation "rm" "../outside" ["q"; "real"])
   /\ check_bash_directory_boundary fs_link "rm /p/outside" A_link A_link
      = Allowed)
  /\ (physical fs0 ["home"; "outside"] = true
      /\ check_bash_directory_boundary fs0 "rm ../outside"
           ["home"; "outside"] ["home"; "outside"] = Allowed
      /\ check_bash_directory_boundary fs0 "rm /home/outside"
           ["home"; "outside"] ["home"; "outside"] = Allowed).
Proof. repeat split. Qed.

(** C3, amended.  Let the working directory be the approved directory [A],
    a canonical directory: proper names without a NUL byte and no symbolic
    link along it.  The argument [../outside] is joined onto [A] and
    resolved: by its spelling the joined path lies below [A], but it
    resolves to where [<A's parent>/outside] leads, exactly as the
    argument [<A's parent>/outside] does.  The two [rm] commands get the
    same verdict: Denied when that place lies outside [A], Allowed when it
    is [A] or below it. *)
Theorem traversal_equivalence (fs : filesystem) (A : Path)
    (command2 : string) :
  physical fs A = true ->
  Forall nul_free A ->
  Shlex.split command2
  = Some ["rm"; PurePath.str (Realpath.parent A) +:+ "/outside"] ->
  resolve_token fs A "../outside" = traversal_target fs A
  /\ resolve_token fs A (PurePath.str (Realpath.parent A) +:+ "/outside")
     = traversal_target fs A
  /\ PurePath.is_relative_to (PurePath.joinpath A "../outside") A = true
  /\ check_bash_directory_boundary fs "rm ../outside" A A
     = (if PurePath.is_relative_to (traversal_target fs A) A
        then Allowed
        else Denied (violation "rm" "../outside" A))
  /\ check_bash_directory_boundary fs command2 A A
     = (if PurePath.is_relative_to (traversal_target fs A) A
        then Allowed
        else Denied (violation "rm"
                       (PurePath.str (Realpath.parent A) +:+ "/outside") A)).
Proof.
  intros HA _ Hsplit.
  assert (Hrm : path_checked (PurePath.name "rm") ["../outside"])
    by (left; by_evaluation).
  assert (Hrm2 : path_checked (PurePath.name "rm")
                   [PurePath.str (Realpath.parent A) +:+ "/outside"])
    by (left; by_evaluation).
  assert (Htarget : Realpath.resolve fs (Realpath.parent A ++ ["outside"])
                    = traversal_target fs A).
  { unfold Realpath.resolve, traversal_target.
    rewrite walk_below by (by apply physical_parent). simpl.
    by destruct (fs (Realpath.parent A ++ ["outside"])). }
  assert (Hrel : resolve_token fs A "../outside" = traversal_target fs A).
  { rewrite <- Htarget. unfold resolve_token.
    change (startswith "../outside" "/") with false.
    cbv iota. unfold Realpath.resolve, PurePath.joinpath.
    change (PurePath.parse_parts "../outside") with [".."; "outside"].
    rewrite walk_up by done.
    rewrite walk_below by (by apply physical_parent). reflexivity. }
  assert (Habs : resolve_token fs A
                   (PurePath.str (Realpath.parent A) +:+ "/outside")
                 = traversal_target fs A).
  { rewrite <- Htarget. unfold resolve_token. rewrite str_startswith_slash.
    change "/outside" with (String "/"%char "outside").
    rewrite parse_parts_str; [reflexivity |].
    apply (physical_from_names fs _ []). by apply physical_parent. }
  rewrite (path_checked_verdict fs _ _ "rm ../outside" "rm" ["../outside"]
             eq_refl Hrm).
  rewrite (path_checked_verdict fs _ _ command2 "rm" _ Hsplit Hrm2).
  rewrite (resolve_physical fs A HA).
  split_and!; [done | done | | |].
  - unfold PurePath.is_relative_to, PurePath.joinpath.
    apply bool_decide_eq_true. by apply prefix_app_r.
  - destruct (PurePath.is_relative_to _ A) eqn:Hcase.
    + apply loop_all_pass. constructor; [| constructor].
      right. unfold inside. by rewrite Hrel.
    + apply loop_violation; [discriminate |]. unfold outside. by rewrite Hrel.
  - destruct (PurePath.is_relative_to _ A) eqn:Hcase.
    + apply loop_all_pass. constructor; [| constructor].
      right. unfold inside. by rewrite Habs.
    + apply loop_violation; [| unfold outside; by rewrite Habs].
      unfold is_flag. by rewrite str_not_flag.
Qed.

Lemma traversal_equivalence_witness :
  resolve_token fs0 A0 "../outside" = ["home"; "outside"]
  /\ check_bash_directory_boundary fs0 "rm ../outside" A0 A0
     = Denied "Directory boundary violation: 'rm' targets '../outside' which is outside approved directory '/home/a'"
  /\ check_bash_directory_boundary fs0 "rm /home/outside" A0 A0
     = Denied "Directory boundary violation: 'rm' targets '/home/outside' which is outside approved directory '/home/a'".
Proof.
  assert (Hnames : Forall nul_free A0) by (repeat constructor).
  pose proof (traversal_equivalence fs0 A0 "rm /home/outside" eq_refl Hnames
                eq_refl) as (Hrel & _ & _ & Hcheck1 & Hcheck2).
  split_and!; [exact Hrel | exact Hcheck1 | exact Hcheck2].
Defined.




(** X9.  When the approved directory and every argument can be resolved,
    whether a command is allowed does not depend on the order of its
    arguments: the two commands return, and are both allowed or both
    denied (the reason may name a different argument).  An argument that
    cannot be resolved makes the order count, since the loop stops at the
    first violation. *)
Theorem argument_order_irrelevant_when_resolved (s : Raising.snapshot)
    (command1 command2 : string) (working_directory approved_directory : Path)
    (token0 : string) (arguments1 arguments2 : list string) :
  Shlex.split command1 = Some (token0 :: arguments1) ->
  Shlex.split command2 = Some (token0 :: arguments2) ->
  arguments1 ≡ₚ arguments2 ->
  (exists resolved_approved,
     Raising.resolve s approved_directory
     = Raising.Returns resolved_approved) ->
  Forall (Raising.resolves s working_directory) arguments1 ->
  exists verdict1 verdict2,
    Raising.check_bash_directory_boundary s command1 working_directory
      approved_directory = Raising.Returns verdict1
    /\ Raising.check_bash_directory_boundary s command2 working_directory
         approved_directory = Raising.Returns verdict2
    /\ fst verdict1 = fst verdict2.
Proof.
  intros Hsplit1 Hsplit2 Hperm (resolved_approved & Happroved) Hres1.
  assert (Hres2 : Forall (Raising.resolves s working_directory) arguments2)
    by (by rewrite <- Hperm).
  rewrite (raising_check_by_class s _ _ _ _ _ Hsplit1).
  rewrite (raising_check_by_class s _ _ _ _ _ Hsplit2).
  rewrite (checks_paths_permutation _ _ _ Hperm), Happroved.
  destruct (checks_paths _ _); [| by exists Allowed, Allowed].
  destruct (raising_loop_resolved s (PurePath.name token0) working_directory
              resolved_approved _ Hres1) as (v1 & -> & Hv1).
  destruct (raising_loop_resolved s (PurePath.name token0) working_directory
              resolved_approved _ Hres2) as (v2 & -> & Hv2).
  exists v1, v2. split_and!; [done | done |].
  rewrite Hv1, Hv2. by apply forallb_permutation.
Qed.

Lemma argument_order_irrelevant_when_resolved_witness :
  Raising.check_bash_directory_boundary snap0 "cp /etc/a ../b notes" A0 A0
  = Raising.Returns (Denied (violation "cp" "/etc/a" A0))
  /\ Raising.check_bash_directory_boundary snap0 "cp notes ../b /etc/a" A0 A0
     = Raising.Returns (Denied (violation "cp" "../b" A0))
  /\ exists verdict1 verdict2,
       Raising.check_bash_directory_boundary snap0 "cp /etc/a ../b notes"
         A0 A0 = Raising.Returns verdict1
       /\ Raising.check_bash_directory_boundary snap0 "cp notes ../b /etc/a"
            A0 A0 = Raising.Returns verdict2
       /\ fst verdict1 = fst verdict2.
Proof.
  split; [reflexivity |]. split; [reflexivity |].
  apply (argument_order_irrelevant_when_resolved snap0
           "cp /etc/a ../b notes" "cp notes ../b /etc/a" A0 A0 "cp"
           ["/etc/a"; "../b"; "notes"] ["notes"; "../b"; "/etc/a"]
           eq_refl eq_refl).
  - etrans; [apply Permutation_swap |].
    etrans; [apply Permutation_skip, Permutation_swap |].
    apply Permutation_swap.
  - by exists A0.
  - constructor; [right; by eexists |].
    constructor; [right; by eexists |].
    constructor; [right; by eexists | constructor].
Defined.
